(** * fetch-url: a shallow embedding of [src/extensions/fetch-url.ts]

    The definitions follow the source file top to bottom:

    - [JsString]   the string primitives of the host language the code uses
                   ([includes], [startsWith], [toLowerCase], [trim], [split],
                   [join]), over sequences of UTF-16 code units;
    - [Effects]    a state-and-exception monad for the code's effects
                   (mutable arrays, thrown exceptions, promise rejection,
                   exceptions raised in event callbacks);
    - [Json]       the built-in [JSON.parse];
    - [Rsc]        [parseRsc] and its two regular expressions;
    - [Engine]     [parseRsc] on a regular-expression engine whose stack
                   is bounded;
    - [Fetch]      [fetchContent] over an explicit transport oracle;
    - [Tool]       the [execute] entry point of the [fetch_url] tool.

    They are followed by the vocabulary of the specification ([Spec]), by
    concrete inputs and collaborators ([Examples], [Scenarios],
    [Outcomes]), and then by the theorems. *)

From Stdlib Require Import List ZArith NArith String Ascii Bool Lia.
From Stdlib Require Import DecimalString.
Import ListNotations.

Set Implicit Arguments.
Set Warnings "-register-all".


(* ================================================================== *)
(** ** Strings of the host language *)

Module JsString.

(** A string is a finite sequence of UTF-16 code units. *)
Definition jsstring := list N.

(** Embedding of ASCII literals. *)
Definition js (s : string) : jsstring :=
  map N_of_ascii (list_ascii_of_string s).
Arguments js s%_string.

Definition dquote : N := 34.      (* the double quote *)
Definition backslash : N := 92.

Definition jsstring_eqb (a b : jsstring) : bool :=
  if list_eq_dec N.eq_dec a b then true else false.

(** [s.startsWith(p)] *)
Fixpoint startsWith (s p : jsstring) : bool :=
  match p, s with
  | [], _ => true
  | _ :: _, [] => false
  | c :: p', d :: s' => (c =? d)%N && startsWith s' p'
  end.

(** [s.includes(p)] *)
Fixpoint includes (s p : jsstring) : bool :=
  startsWith s p ||
  match s with
  | [] => false
  | _ :: s' => includes s' p
  end.

(** [s.toLowerCase()], on the ASCII letters; the other code units are left
    as they are (the Unicode case tables are not part of the model). *)
Definition lower_unit (c : N) : N :=
  if ((65 <=? c) && (c <=? 90))%N then (c + 32)%N else c.

Definition toLowerCase (s : jsstring) : jsstring := map lower_unit s.

(** White space and line terminators, the code units [trim] strips. *)
Definition is_space (c : N) : bool :=
  ((9 <=? c) && (c <=? 13) || (c =? 32) || (c =? 160) || (c =? 5760)
   || (8192 <=? c) && (c <=? 8202) || (c =? 8232) || (c =? 8233)
   || (c =? 8239) || (c =? 8287) || (c =? 12288) || (c =? 65279))%N.

Fixpoint trimStart (s : jsstring) : jsstring :=
  match s with
  | c :: s' => if is_space c then trimStart s' else s
  | [] => []
  end.

Definition trimEnd (s : jsstring) : jsstring := rev (trimStart (rev s)).

Definition trim (s : jsstring) : jsstring := trimEnd (trimStart s).

(** [s.split(sep)] for a one-unit separator: never the empty list. *)
Fixpoint split (sep : N) (s : jsstring) : list jsstring :=
  match s with
  | [] => [[]]
  | c :: s' =>
      if (c =? sep)%N then [] :: split sep s'
      else match split sep s' with
           | l :: ls => (c :: l) :: ls
           | [] => [[c]]
           end
  end.

(** [parts.join(sep)] *)
Fixpoint join (sep : jsstring) (parts : list jsstring) : jsstring :=
  match parts with
  | [] => []
  | [p] => p
  | p :: ps => p ++ sep ++ join sep ps
  end.

(** [String(n)] for an integer. *)
Definition string_of_Z (z : Z) : jsstring :=
  js (NilZero.string_of_int (Z.to_int z)).

End JsString.
Import JsString.

(* ================================================================== *)
(** ** Effects: state, exceptions, uncaught faults *)

Module Effects.

(** A thrown value: an [Error] object with its message, or anything else,
    with the text [String(value)] gives. *)
Inductive Exn : Type :=
| JsError (message : jsstring)
| JsOther (shown : jsstring).

(** The outcome of a computation.  [Thrown] is an exception inside the
    current control flow (a [throw], or the rejection of an awaited
    promise): a [try]/[catch] around it sees it.  [Fault] is an exception
    raised inside an event callback: no [try] block or promise is on the
    stack there, the awaited promise is never settled, and the exception
    reaches the host as an uncaught one. *)
Inductive Res (A : Type) : Type :=
| Val (a : A)
| Thrown (e : Exn)
| Fault (e : Exn).
Arguments Val {A} a.
Arguments Thrown {A} e.
Arguments Fault {A} e.

Definition M (S A : Type) : Type := S -> Res A * S.

Definition ret {S A} (a : A) : M S A := fun s => (Val a, s).

Definition throw {S A} (e : Exn) : M S A := fun s => (Thrown e, s).

Definition fault {S A} (e : Exn) : M S A := fun s => (Fault e, s).

Definition bind {S A B} (m : M S A) (k : A -> M S B) : M S B :=
  fun s =>
    match m s with
    | (Val a, s') => k a s'
    | (Thrown e, s') => (Thrown e, s')
    | (Fault e, s') => (Fault e, s')
    end.

(** [try { body } catch (e) { handler e }]: the state changes made before
    the throw are kept. *)
Definition try_catch {S A} (body : M S A) (handler : Exn -> M S A) : M S A :=
  fun s =>
    match body s with
    | (Thrown e, s') => handler e s'
    | r => r
    end.

Definition modify {S} (f : S -> S) : M S unit := fun s => (Val tt, f s).

Definition gets {S A} (f : S -> A) : M S A := fun s => (Val (f s), s).

(** A value that throws or not, without touching the state. *)
Definition lift {S A} (r : Res A) : M S A := fun s => (r, s).

(** [for (const x of xs) body x] *)
Fixpoint for_of {S A} (xs : list A) (body : A -> M S unit) : M S unit :=
  match xs with
  | [] => ret tt
  | x :: xs' => bind (body x) (fun _ => for_of xs' body)
  end.

End Effects.
Import Effects.

Declare Scope monad_scope.
Delimit Scope monad_scope with monad.
Notation "x <- m ;; k" := (bind m (fun x => k))
  (at level 61, m at next level, right associativity) : monad_scope.
Notation "m ;; k" := (bind m (fun _ => k))
  (at level 61, right associativity) : monad_scope.
Open Scope monad_scope.

(* ================================================================== *)
(** ** The built-in [JSON.parse] *)

Module Json.

(** A parsed value.  A number keeps the text of its literal and an object
    its members in source order: the code only asks whether a value is a
    string or an array. *)
Inductive JSON : Type :=
| JNull
| JBool (b : bool)
| JNumber (literal : jsstring)
| JString (s : jsstring)
| JArray (items : list JSON)
| JObject (members : list (jsstring * JSON)).

Definition is_ws (c : N) : bool :=
  ((c =? 9) || (c =? 10) || (c =? 13) || (c =? 32))%N.

Fixpoint skip_ws (s : jsstring) : jsstring :=
  match s with
  | c :: s' => if is_ws c then skip_ws s' else s
  | [] => []
  end.

Definition is_digit (c : N) : bool := ((48 <=? c) && (c <=? 57))%N.

(** The longest prefix of digits, and what follows it. *)
Fixpoint span_digits (s : jsstring) : jsstring * jsstring :=
  match s with
  | c :: s' =>
      if is_digit c
      then let (ds, r) := span_digits s' in (c :: ds, r)
      else ([], s)
  | [] => ([], [])
  end.

Definition hex_value (c : N) : option N :=
  if is_digit c then Some (c - 48)%N
  else if ((97 <=? c) && (c <=? 102))%N then Some (c - 87)%N
  else if ((65 <=? c) && (c <=? 70))%N then Some (c - 55)%N
  else None.

Definition hex4 (a b c d : N) : option N :=
  match hex_value a, hex_value b, hex_value c, hex_value d with
  | Some x, Some y, Some z, Some w => Some (((x * 16 + y) * 16 + z) * 16 + w)%N
  | _, _, _, _ => None
  end.

(** The single-character escapes. *)
Definition escape_unit (e : N) : option N :=
  if (e =? 34)%N then Some 34%N          (* quote *)
  else if (e =? 92)%N then Some 92%N     (* backslash *)
  else if (e =? 47)%N then Some 47%N     (* slash *)
  else if (e =? 98)%N then Some 8%N      (* b *)
  else if (e =? 102)%N then Some 12%N    (* f *)
  else if (e =? 110)%N then Some 10%N    (* n *)
  else if (e =? 114)%N then Some 13%N    (* r *)
  else if (e =? 116)%N then Some 9%N     (* t *)
  else None.

(** The characters of a string literal after its opening quote, up to and
    including the closing quote: the decoded string and the rest. *)
Fixpoint parse_string_chars (s : jsstring) : option (jsstring * jsstring) :=
  match s with
  | [] => None
  | c :: t =>
      if (c =? dquote)%N then Some ([], t)
      else if (c =? backslash)%N then
        match t with
        | e :: t' =>
            if (e =? 117)%N then                              (* u *)
              match t' with
              | h1 :: h2 :: h3 :: h4 :: t'' =>
                  match hex4 h1 h2 h3 h4, parse_string_chars t'' with
                  | Some u, Some (str, r) => Some (u :: str, r)
                  | _, _ => None
                  end
              | _ => None
              end
            else
              match escape_unit e, parse_string_chars t' with
              | Some u, Some (str, r) => Some (u :: str, r)
              | _, _ => None
              end
        | [] => None
        end
      else if (c <? 32)%N then None
      else
        match parse_string_chars t with
        | Some (str, r) => Some (c :: str, r)
        | None => None
        end
  end.

(** At least one digit. *)
Definition digits1 (s : jsstring) : option (jsstring * jsstring) :=
  match span_digits s with
  | ([], _) => None
  | (ds, r) => Some (ds, r)
  end.

Definition parse_int_part (s : jsstring) : option (jsstring * jsstring) :=
  match s with
  | c :: t =>
      if (c =? 48)%N then Some ([c], t)
      else if is_digit c then let (ds, r) := span_digits t in Some (c :: ds, r)
      else None
  | [] => None
  end.

Definition parse_fraction (s : jsstring) : option (jsstring * jsstring) :=
  match s with
  | c :: t =>
      if (c =? 46)%N then                                     (* . *)
        match digits1 t with
        | Some (ds, r) => Some (c :: ds, r)
        | None => None
        end
      else Some ([], s)
  | [] => Some ([], [])
  end.

Definition parse_exponent (s : jsstring) : option (jsstring * jsstring) :=
  match s with
  | c :: t =>
      if ((c =? 101) || (c =? 69))%N then                     (* e E *)
        let (sign, t') :=
          match t with
          | g :: u => if ((g =? 43) || (g =? 45))%N then ([g], u) else ([], t)
          | [] => ([], t)
          end in
        match digits1 t' with
        | Some (ds, r) => Some (c :: sign ++ ds, r)
        | None => None
        end
      else Some ([], s)
  | [] => Some ([], [])
  end.

Definition parse_number (s : jsstring) : option (jsstring * jsstring) :=
  let (sign, s1) :=
    match s with
    | c :: t => if (c =? 45)%N then ([c], t) else ([], s)
    | [] => ([], s)
    end in
  match parse_int_part s1 with
  | Some (i, s2) =>
      match parse_fraction s2 with
      | Some (f, s3) =>
          match parse_exponent s3 with
          | Some (e, s4) => Some (sign ++ i ++ f ++ e, s4)
          | None => None
          end
      | None => None
      end
  | None => None
  end.

(** [word] at the head of [s], then the rest. *)
Definition keyword (word : jsstring) (s : jsstring) : option jsstring :=
  if startsWith s word then Some (skipn (List.length word) s) else None.

Section Loops.

Variable value : jsstring -> option (JSON * jsstring).

(** The elements of an array after the first bracket, when the array is
    not empty: values separated by commas, up to the closing bracket. *)
Fixpoint parse_elements (n : nat) (s : jsstring)
  : option (list JSON * jsstring) :=
  match n with
  | O => None
  | S n' =>
      match value s with
      | Some (v, r) =>
          match skip_ws r with
          | c :: r' =>
              if (c =? 44)%N then                             (* , *)
                match parse_elements n' r' with
                | Some (vs, r'') => Some (v :: vs, r'')
                | None => None
                end
              else if (c =? 93)%N then Some ([v], r')         (* ] *)
              else None
          | [] => None
          end
      | None => None
      end
  end.

(** The members of an object after the brace, when it is not empty. *)
Fixpoint parse_members (n : nat) (s : jsstring)
  : option (list (jsstring * JSON) * jsstring) :=
  match n with
  | O => None
  | S n' =>
      match skip_ws s with
      | q :: s1 =>
          if (q =? dquote)%N then
            match parse_string_chars s1 with
            | Some (key, s2) =>
                match skip_ws s2 with
                | c :: s3 =>
                    if (c =? 58)%N then                       (* : *)
                      match value s3 with
                      | Some (v, r) =>
                          match skip_ws r with
                          | d :: r' =>
                              if (d =? 44)%N then
                                match parse_members n' r' with
                                | Some (ms, r'') => Some ((key, v) :: ms, r'')
                                | None => None
                                end
                              else if (d =? 125)%N then Some ([(key, v)], r')
                              else None
                          | [] => None
                          end
                      | None => None
                      end
                    else None
                | [] => None
                end
            | None => None
            end
          else None
      | [] => None
      end
  end.

End Loops.

(** One value, surrounded by optional white space on its left.  [fuel]
    bounds the nesting depth and the number of elements of an array or
    object; [JSON_parse] gives it more than the input is long. *)
Fixpoint parse_value (fuel : nat) (s : jsstring) : option (JSON * jsstring) :=
  match fuel with
  | O => None
  | S fuel' =>
      match skip_ws s with
      | [] => None
      | c :: t =>
          if (c =? dquote)%N then
            match parse_string_chars t with
            | Some (str, r) => Some (JString str, r)
            | None => None
            end
          else if (c =? 91)%N then                            (* [ *)
            match skip_ws t with
            | d :: r =>
                if (d =? 93)%N then Some (JArray [], r)
                else
                  match parse_elements (parse_value fuel') fuel' (d :: r) with
                  | Some (vs, r') => Some (JArray vs, r')
                  | None => None
                  end
            | [] => None
            end
          else if (c =? 123)%N then                           (* { *)
            match skip_ws t with
            | d :: r =>
                if (d =? 125)%N then Some (JObject [], r)
                else
                  match parse_members (parse_value fuel') fuel' (d :: r) with
                  | Some (ms, r') => Some (JObject ms, r')
                  | None => None
                  end
            | [] => None
            end
          else if (c =? 116)%N then                           (* t *)
            match keyword (js "true") (c :: t) with
            | Some r => Some (JBool true, r)
            | None => None
            end
          else if (c =? 102)%N then                           (* f *)
            match keyword (js "false") (c :: t) with
            | Some r => Some (JBool false, r)
            | None => None
            end
          else if (c =? 110)%N then                           (* n *)
            match keyword (js "null") (c :: t) with
            | Some r => Some (JNull, r)
            | None => None
            end
          else
            match parse_number (c :: t) with
            | Some (lit, r) => Some (JNumber lit, r)
            | None => None
            end
      end
  end.

(** [JSON.parse(text)]: one value and nothing but white space after it;
    [None] stands for the [SyntaxError] it throws otherwise. *)
Definition JSON_parse (text : jsstring) : option JSON :=
  match parse_value (S (List.length text)) text with
  | Some (v, r) =>
      match skip_ws r with
      | [] => Some v
      | _ :: _ => None
      end
  | None => None
  end.

End Json.
Import Json.

(* ================================================================== *)
(** ** [parseRsc]: strings out of a React Server Component payload *)

Module Rsc.

(** The code units the dot of a regular expression does not match. *)
Definition is_line_terminator (c : N) : bool :=
  ((c =? 10) || (c =? 13) || (c =? 8232) || (c =? 8233))%N.

Definition is_empty (s : jsstring) : bool :=
  match s with
  | [] => true
  | _ :: _ => false
  end.

(** [trimmed.match(/^(\d+):(.+)$/)]: the two groups, or [None] for [null].
    The digits are taken greedily; a colon must follow them, and at least
    one unit, none of them a line terminator, up to the end. *)
Definition rowMatch (trimmed : jsstring) : option (jsstring * jsstring) :=
  match span_digits trimmed with
  | ((_ :: _) as digits, c :: payload) =>
      if (c =? 58)%N && negb (is_empty payload)
         && forallb (fun u => negb (is_line_terminator u)) payload
      then Some (digits, payload)
      else None
  | _ => None
  end.

(** The fallback expression of the [catch] block reads: a quote, any
    number of (a unit other than a quote or a backslash, or a backslash and
    one unit that is no line terminator), a quote.  [quoted_body] scans what
    follows the opening quote and gives the matched units, closing quote
    included.  The two alternatives start with different units, so a
    failed scan has no other way to match from the same opening quote. *)
Fixpoint quoted_body (s : jsstring) : option jsstring :=
  match s with
  | [] => None
  | c :: t =>
      if (c =? dquote)%N then Some [c]
      else if (c =? backslash)%N then
        match t with
        | e :: t' =>
            if is_line_terminator e then None
            else
              match quoted_body t' with
              | Some b => Some (c :: e :: b)
              | None => None
              end
        | [] => None
        end
      else
        match quoted_body t with
        | Some b => Some (c :: b)
        | None => None
        end
  end.

(** All the matches of the global expression, leftmost first and without
    overlap: [skip] units are still part of the match found last. *)
Fixpoint quoted_matches (skip : nat) (s : jsstring) : list jsstring :=
  match s with
  | [] => []
  | c :: t =>
      match skip with
      | S k => quoted_matches k t
      | O =>
          if (c =? dquote)%N then
            match quoted_body t with
            | Some b => (c :: b) :: quoted_matches (List.length b) t
            | None => quoted_matches 0 t
            end
          else quoted_matches 0 t
      end
  end.

(** [payload.match(...)] with the global fallback expression: the list of
    the matched texts, [None] for [null] when there is none.  This is the
    value of the call on an engine whose backtrack stack is never exhausted;
    [Engine.stringMatches_on] below is the call on a stack of a given
    size, where it can throw. *)
Definition stringMatches (payload : jsstring) : option (list jsstring) :=
  match quoted_matches 0 payload with
  | [] => None
  | ms => Some ms
  end.

(** [extracted.push(x)] *)
Definition push (x : jsstring) : M (list jsstring) unit :=
  modify (fun extracted => extracted ++ [x]).

Definition sentinel_free (s : jsstring) : bool :=
  negb (startsWith s (js "$")) && negb (startsWith s (js "@")).

Section WithParser.

(** The parser, [None] when it throws. *)
Variable parse : jsstring -> option JSON.

Definition JSON_parse_or_throw (text : jsstring) : M (list jsstring) JSON :=
  match parse text with
  | Some v => ret v
  | None => throw (JsError (js "SyntaxError"))
  end.

(** The [try] block of the loop body. *)
Definition tryPayload (payload : jsstring) : M (list jsstring) unit :=
  parsed <- JSON_parse_or_throw payload ;;
  match parsed with
  | JString p =>
      if (20 <? List.length p)%nat then
        (if sentinel_free p then push p else ret tt)       (* continue *)
      else ret tt
  | JArray items =>
      for_of items (fun item =>
        match item with
        | JString i =>
            if (20 <? List.length i)%nat then
              if sentinel_free i && negb (startsWith i (js "["))
              then push i else ret tt
            else ret tt
        | _ => ret tt
        end)
  | _ => ret tt
  end.

(** The [catch] block of the loop body: the quoted-string fallback. *)
Definition catchPayload (payload : jsstring) : M (list jsstring) unit :=
  match stringMatches payload with
  | Some ms =>
      for_of ms (fun m =>
        try_catch
          (content <- JSON_parse_or_throw m ;;
           match content with
           | JString c =>
               if (20 <? List.length c)%nat then
                 if sentinel_free c then push c else ret tt
               else ret tt
           | _ => ret tt
           end)
          (fun _ => ret tt))
  | None => ret tt
  end.

(** The loop body, for one line. *)
Definition parseRsc_line (line : jsstring) : M (list jsstring) unit :=
  let trimmed := trim line in
  if is_empty trimmed || startsWith trimmed (js "#") then ret tt
  else
    match rowMatch trimmed with
    | None => ret tt
    | Some (_, payload) =>
        try_catch (tryPayload payload) (fun _ => catchPayload payload)
    end.

Definition parseRsc_with (data : jsstring) : Res jsstring :=
  let lines := split 10 data in
  fst ((for_of lines parseRsc_line ;;
        extracted <- gets (fun e => e) ;;
        ret (join [10; 10]%N extracted)) []).

End WithParser.

Definition parseRsc (data : jsstring) : Res jsstring :=
  parseRsc_with JSON_parse data.

End Rsc.
Import Rsc.

(* ================================================================== *)
(** ** [parseRsc] on a regular-expression engine with a bounded stack *)

(** The engine runs the starred group of the fallback expression with one
    backtrack entry for each turn of the group, on a stack of bounded size.
    A scan that takes more turns than the stack holds makes
    [payload.match(...)] throw a [RangeError].  The call stands in the
    [catch] block of the loop body, outside the [try] of the inner loop, so
    the error leaves [parseRsc].  The size of the stack is the engine's: it
    is the parameter [limit]. *)
Module Engine.

Definition RANGE_ERROR : Exn :=
  JsError (js "Maximum call stack size exceeded").

(** The turns of the starred group in a scan from an opening quote,
    whether the scan ends at a closing quote or fails. *)
Fixpoint quoted_body_steps (s : jsstring) : nat :=
  match s with
  | [] => O
  | c :: t =>
      if (c =? dquote)%N then O
      else if (c =? backslash)%N then
        match t with
        | e :: t' =>
            if is_line_terminator e then O else S (quoted_body_steps t')
        | [] => O
        end
      else S (quoted_body_steps t)
  end.

(** [quoted_matches], with the scan from each opening quote run on a stack
    of [limit] entries. *)
Fixpoint quoted_matches_on (limit skip : nat) (s : jsstring)
    : Res (list jsstring) :=
  match s with
  | [] => Val []
  | c :: t =>
      match skip with
      | S k => quoted_matches_on limit k t
      | O =>
          if (c =? dquote)%N then
            if (limit <? quoted_body_steps t)%nat then Thrown RANGE_ERROR
            else
              match quoted_body t with
              | Some b =>
                  match quoted_matches_on limit (List.length b) t with
                  | Val ms => Val ((c :: b) :: ms)
                  | Thrown e => Thrown e
                  | Fault e => Fault e
                  end
              | None => quoted_matches_on limit 0 t
              end
          else quoted_matches_on limit 0 t
      end
  end.

(** [payload.match(...)] on that engine. *)
Definition stringMatches_on (limit : nat) (payload : jsstring)
    : Res (option (list jsstring)) :=
  match quoted_matches_on limit 0 payload with
  | Val [] => Val None
  | Val ms => Val (Some ms)
  | Thrown e => Thrown e
  | Fault e => Fault e
  end.

Section WithParser.

Variable parse : jsstring -> option JSON.
Variable limit : nat.

(** The body of the inner loop, with its own [try] and [catch]. *)
Definition decodeMatch (m : jsstring) : M (list jsstring) unit :=
  try_catch
    (content <- JSON_parse_or_throw parse m ;;
     match content with
     | JString c =>
         if (20 <? List.length c)%nat then
           if sentinel_free c then push c else ret tt
         else ret tt
     | _ => ret tt
     end)
    (fun _ => ret tt).

(** The [catch] block of the loop body: the call of [match] comes first,
    under no [try]. *)
Definition catchPayload_on (payload : jsstring) : M (list jsstring) unit :=
  stringMatches <- lift (stringMatches_on limit payload) ;;
  match stringMatches with
  | Some ms => for_of ms decodeMatch
  | None => ret tt
  end.

Definition parseRsc_line_on (line : jsstring) : M (list jsstring) unit :=
  let trimmed := trim line in
  if is_empty trimmed || startsWith trimmed (js "#") then ret tt
  else
    match rowMatch trimmed with
    | None => ret tt
    | Some (_, payload) =>
        try_catch (tryPayload parse payload)
                  (fun _ => catchPayload_on payload)
    end.

Definition parseRsc_on_with (data : jsstring) : Res jsstring :=
  let lines := split 10 data in
  fst ((for_of lines parseRsc_line_on ;;
        extracted <- gets (fun e => e) ;;
        ret (join [10; 10]%N extracted)) []).

End WithParser.

Definition parseRsc_on (limit : nat) (data : jsstring) : Res jsstring :=
  parseRsc_on_with JSON_parse limit data.

(** A row whose payload opens a brace and then holds one quoted literal of
    [n] letters: no JSON, and a scan of [n] turns. *)
Definition long_literal_row (n : nat) : jsstring :=
  js "1:{" ++ dquote :: repeat 97%N n ++ [dquote].

End Engine.
Import Engine.

(* ================================================================== *)
(** ** [fetchContent]: GET with manual redirects *)

Module Fetch.

Inductive Client : Type := Http | Https.

(** A [Record<string, string>], in insertion order. *)
Definition Headers := list (jsstring * jsstring).

Fixpoint set_header (k v : jsstring) (hs : Headers) : Headers :=
  match hs with
  | [] => [(k, v)]
  | (k', v') :: hs' =>
      if jsstring_eqb k k' then (k, v) :: hs'
      else (k', v') :: set_header k v hs'
  end.

(** The object spread [{ ...a, ...b }]: the values of [b] win. *)
Definition spread (a b : Headers) : Headers :=
  fold_left (fun acc kv => set_header (fst kv) (snd kv) acc) b a.

(** What the code reads of a response: [res.statusCode],
    [res.headers.location], [res.headers['content-type']] and the chunks of
    the [data] events before [end]. *)
Record IncomingMessage : Type := {
  res_statusCode : option Z;
  res_location : option jsstring;
  res_contentType : option jsstring;
  res_chunks : list jsstring
}.

(** What [client.get] does with one request.  A response is delivered
    whole: a transport that never answers, or stops in the middle of a
    body, is outside the model, and so is a body too long for one string,
    at which the [data] listener of line 44 would throw. *)
Inductive GetOutcome : Type :=
| GetThrows (e : Exn)                 (* [client.get] itself throws *)
| GetError (e : Exn)                  (* the request emits [error] *)
| GetResponse (res : IncomingMessage).

(** The observable steps of one tool invocation, oldest first. *)
Inductive Event : Type :=
| EvFetchContent (url : jsstring) (maxRedirects : Z)
| EvGet (client : Client) (url : jsstring) (headers : Headers)
| EvDestroy (url : jsstring)
| EvParseRsc
| EvJSDOM (url : jsstring)
| EvReadability
| EvTurndown.

(** [requests] counts the requests issued so far; it is the clock the
    transport and the cancellation signal are read at. *)
Record World : Type := {
  requests : nat;
  trace : list Event
}.

Definition emit (e : Event) : M World unit :=
  modify (fun w => {| requests := requests w; trace := trace w ++ [e] |}).

Definition issue (e : Event) : M World nat :=
  fun w => (Val (requests w),
            {| requests := S (requests w); trace := trace w ++ [e] |}).

(** An [AbortSignal]: its [aborted] flag when [n] requests have been
    issued.  The flag is read where the code reads it, at line 55 of each
    call.  The transport is handed the signal too (line 32), and the
    [error] listener of a request that was followed stays in place: a
    signal that is set while a request is in flight reaches the code as
    the error of that request, a [GetError] of the transport here.  The
    theorems on cancellation take a signal that is set when the call is
    made. *)
Definition AbortSignal := nat -> bool.

(** [signal?.aborted] *)
Definition aborted (signal : option AbortSignal) (n : nat) : bool :=
  match signal with
  | Some flag => flag n
  | None => false
  end.

(** What the code reads of the article the readability parser returns. *)
Record Article : Type := {
  article_title : option jsstring;      (* [article.title], [None]: [null] *)
  article_content : option jsstring     (* [article.content] *)
}.

(** The collaborators of the module: the constant of [utils.js], the [URL]
    class, the [http] and [https] clients, and the DOM, readability and
    Markdown libraries [execute] calls.  A call that throws gives the
    thrown value on the left. *)
Record Env : Type := {
  USER_AGENT : jsstring;
  (* [new URL(url).protocol] *)
  URL_protocol : jsstring -> Exn + jsstring;
  (* [new URL(location, base).toString()] *)
  URL_resolve : jsstring -> jsstring -> Exn + jsstring;
  (* the [n]-th request of the invocation *)
  client_get : nat -> Client -> jsstring -> Headers -> GetOutcome;
  Document : Type;
  (* [new JSDOM(data, { url })] *)
  JSDOM : jsstring -> jsstring -> Exn + Document;
  (* [new Readability(document).parse()]: the article, and the document
     as the parser leaves it *)
  Readability_parse : Document -> Exn + (option Article * Document);
  (* the [textContent] of each element of [querySelectorAll('script')] *)
  script_texts : Document -> list (option jsstring);
  (* [turndownService.turndown(html)] *)
  turndown : jsstring -> Exn + jsstring
}.

Definition of_sum {S A} (r : Exn + A) : M S A :=
  match r with
  | inl e => throw e
  | inr a => ret a
  end.

Record FetchResult : Type := {
  data : jsstring;
  contentType : jsstring;
  statusCode : Z
}.

Definition ACCEPT : jsstring :=
  js "text/html,application/xhtml+xml,application/xml;q=0.9,"
  ++ js "text/plain;q=0.8,application/json,*/*;q=0.5".

(** [res.statusCode && res.statusCode >= 300 && res.statusCode < 400 &&
    res.headers.location]: the location when the condition holds. *)
Definition redirect_location (res : IncomingMessage) : option jsstring :=
  match res_statusCode res, res_location res with
  | Some code, Some (c :: l) =>
      if negb (code =? 0)%Z && (300 <=? code)%Z && (code <? 400)%Z
      then Some (c :: l) else None
  | _, _ => None
  end.

(** The value the [end] handler resolves the promise with. *)
Definition resolved (res : IncomingMessage) : FetchResult :=
  {| data := List.concat (res_chunks res);
     contentType := match res_contentType res with
                    | Some (c :: t) => c :: t
                    | _ => []
                    end;
     statusCode := match res_statusCode res with
                   | Some code => code
                   | None => 0%Z
                   end |}.

(** [parsedUrl.protocol === 'https:' ? https : http] *)
Definition client_for (protocol : jsstring) : Client :=
  if jsstring_eqb protocol (js "https:") then Https else Http.

(** The headers of the request: the two defaults, then the caller's. *)
Definition requestHeaders (env : Env) (headers : Headers) : Headers :=
  spread [(js "User-Agent", USER_AGENT env); (js "Accept", ACCEPT)] headers.

Definition TOO_MANY_REDIRECTS : Exn := JsError (js "Too many redirects").

Definition REQUEST_ABORTED : Exn := JsError (js "Request aborted").

Section WithEnv.

Variable env : Env.

(** The body of [fetchContent], with [self] for the recursive call.  The
    executor of the promise runs up to the test of the signal; the response
    callback runs later, outside it: what it throws is a [Fault].  The
    throw modelled there is the one of [new URL] at line 36. *)
Definition fetchContent_body
    (self : jsstring -> Headers -> option AbortSignal -> Z
            -> M World FetchResult)
    (url : jsstring) (headers : Headers) (signal : option AbortSignal)
    (maxRedirects : Z) : M World FetchResult :=
  emit (EvFetchContent url maxRedirects) ;;
  if (maxRedirects <? 0)%Z then throw TOO_MANY_REDIRECTS
  else
    protocol <- of_sum (URL_protocol env url) ;;
    let client := client_for protocol in
    n <- issue (EvGet client url (requestHeaders env headers)) ;;
    match client_get env n client url (requestHeaders env headers) with
    | GetThrows e => throw e
    | GetError e =>
        if aborted signal n
        then emit (EvDestroy url) ;; throw REQUEST_ABORTED
        else throw e
    | GetResponse res =>
        if aborted signal n
        then emit (EvDestroy url) ;; throw REQUEST_ABORTED
        else
          match redirect_location res with
          | Some location =>
              match URL_resolve env location url with
              | inl e => fault e
              | inr redirectUrl =>
                  self redirectUrl headers signal (maxRedirects - 1)%Z
              end
          | None => ret (resolved res)
          end
    end.

(** The recursion is on [maxRedirects], which goes down by one at each
    call and stops it below zero; [fuel] makes it structural, and
    [fetchContent] gives one more than the calls that can be made. *)
Fixpoint fetchContent_from (fuel : nat) (url : jsstring) (headers : Headers)
    (signal : option AbortSignal) (maxRedirects : Z) : M World FetchResult :=
  match fuel with
  | S fuel' =>
      fetchContent_body (fetchContent_from fuel') url headers signal
                        maxRedirects
  | O => throw TOO_MANY_REDIRECTS
  end.

Definition fetchContent (url : jsstring) (headers : Headers)
    (signal : option AbortSignal) (maxRedirects : Z) : M World FetchResult :=
  fetchContent_from (S (Z.to_nat (maxRedirects + 1))) url headers signal
                    maxRedirects.

End WithEnv.

End Fetch.
Import Fetch.

(* ================================================================== *)
(** ** The [fetch_url] tool *)

Module Tool.

Record ContentItem : Type := {
  type : jsstring;
  text : jsstring
}.

(** [isError] is [None] when the property is absent. *)
Record ToolResult : Type := {
  content : list ContentItem;
  isError : option bool
}.

(** [{ content: [{ type: 'text', text: t }] }] *)
Definition text_result (t : jsstring) : ToolResult :=
  {| content := [{| type := js "text"; text := t |}]; isError := None |}.

(** [{ content: [{ type: 'text', text: t }], isError: true }] *)
Definition error_result (t : jsstring) : ToolResult :=
  {| content := [{| type := js "text"; text := t |}]; isError := Some true |}.

(** The challenge test of the local response (lines 143 to 151). *)
Definition isChallenge (statusCode : Z) (data : jsstring) : bool :=
  let lowerData := toLowerCase data in
  (statusCode =? 403)%Z
  || (statusCode =? 429)%Z
  || (statusCode =? 503)%Z
  || includes lowerData (js "challenge")
  || includes lowerData (js "captcha")
  || includes lowerData (js "cloudflare")
  || includes lowerData (js "just a moment...").

(** The test of the proxy response (lines 212 to 218). *)
Definition jinaBlocked (data : jsstring) : bool :=
  let jinaLower := toLowerCase data in
  includes jinaLower (js "challenge")
  || includes jinaLower (js "captcha")
  || includes jinaLower (js "cloudflare")
  || includes jinaLower (js "just a moment...").

(** The template literal [`${v}`] of a value that is a string or [null]. *)
Definition show (v : option jsstring) : jsstring :=
  match v with
  | Some s => s
  | None => js "null"
  end.

(** [error instanceof Error ? error.message : String(error)] *)
Definition message_of (error : Exn) : jsstring :=
  match error with
  | JsError message => message
  | JsOther shown => shown
  end.

Definition BLOCKED_TEXT : jsstring :=
  js "Unable to fetch content due to access restrictions "
  ++ js "(Jina Reader also blocked)." ++ [10%N] ++ js "Please use the "
  ++ [dquote] ++ js "agent-browser" ++ [dquote]
  ++ js " tool to access this page.".

Definition FAILED_TEXT (status : Z) : jsstring :=
  js "Failed to fetch content via local parser and Jina Reader (Status: "
  ++ string_of_Z status ++ js ")." ++ [10%N] ++ js "Please use the "
  ++ [dquote] ++ js "agent-browser" ++ [dquote] ++ js " tool.".

Definition ERROR_TEXT (error : Exn) : jsstring :=
  js "Error fetching URL: " ++ message_of error ++ [10%N; 10%N]
  ++ js "Please try using the " ++ [dquote] ++ js "agent-browser"
  ++ [dquote] ++ js " tool to access this page.".

Section WithEnv.

Variable env : Env.

(** [parseRsc] called from [execute]. *)
Definition call_parseRsc (payload : jsstring) : M World jsstring :=
  emit EvParseRsc ;; lift (parseRsc payload).

(** Lines 179 to 190: the article when it has content of more than 100
    units, as Markdown under a heading; [Some] is the [return]. *)
Definition articleResult (article : option Article)
  : M World (option ToolResult) :=
  match article with
  | Some a =>
      match article_content a with
      | Some (c :: html) =>
          if (100 <? List.length (c :: html))%nat then
            emit EvTurndown ;;
            markdown <- of_sum (turndown env (c :: html)) ;;
            ret (Some (text_result
                   (js "# " ++ show (article_title a) ++ [10%N; 10%N]
                    ++ markdown)))
          else ret None
      | _ => ret None
      end
  | None => ret None
  end.

(** Lines 193 to 201: the first script with the marker whose payload gives
    more than 50 units. *)
Fixpoint scanScripts (scripts : list (option jsstring))
  : M World (option ToolResult) :=
  match scripts with
  | [] => ret None
  | script :: rest =>
      match script with
      | Some (c :: t) =>
          if includes (c :: t) (js "self.__next_f.push") then
            rscText <- call_parseRsc (c :: t) ;;
            if (50 <? List.length rscText)%nat
            then ret (Some (text_result rscText))
            else scanScripts rest
          else scanScripts rest
      | _ => scanScripts rest
      end
  end.

(** Lines 173 to 202, the body of [if (contentType.includes('text/html'))]. *)
Definition htmlStage (data url : jsstring) : M World (option ToolResult) :=
  emit (EvJSDOM url) ;;
  doc <- of_sum (JSDOM env data url) ;;
  emit EvReadability ;;
  parsed <- of_sum (Readability_parse env doc) ;;
  let (article, doc') := parsed in
  found <- articleResult article ;;
  match found with
  | Some result => ret (Some result)
  | None => scanScripts (script_texts env doc')
  end.

(** Lines 140 to 203: [Some] is a [return] of the local path, [None] falls
    through to the proxy. *)
Definition localStage (url : jsstring) (signal : option AbortSignal)
  : M World (option ToolResult) :=
  fetched <- fetchContent env url [] signal 5 ;;
  let data := data fetched in
  let contentType := contentType fetched in
  let statusCode := statusCode fetched in
  if isChallenge statusCode data then ret None
  else if (200 <=? statusCode)%Z && (statusCode <? 300)%Z then
    if includes contentType (js "application/json")
       || includes contentType (js "text/plain")
       || includes contentType (js "text/markdown")
    then ret (Some (text_result data))
    else
      early <-
        (if includes contentType (js "text/x-component") then
           rscText <- call_parseRsc data ;;
           if (50 <? List.length rscText)%nat
           then ret (Some (text_result rscText))
           else ret None
         else ret None) ;;
      match early with
      | Some result => ret (Some result)
      | None =>
          if includes contentType (js "text/html")
          then htmlStage data url
          else ret None
      end
  else ret None.

(** [`https://r.jina.ai/${url}`] *)
Definition jinaUrl (url : jsstring) : jsstring :=
  js "https://r.jina.ai/" ++ url.

(** Lines 205 to 241. *)
Definition jinaFallback (url : jsstring) (signal : option AbortSignal)
  : M World ToolResult :=
  jinaResult <- fetchContent env (jinaUrl url) [] signal 5 ;;
  if (200 <=? statusCode jinaResult)%Z && (statusCode jinaResult <? 300)%Z then
    if jinaBlocked (data jinaResult)
    then ret (error_result BLOCKED_TEXT)
    else ret (text_result (data jinaResult))
  else ret (error_result (FAILED_TEXT (statusCode jinaResult))).

(** The entry point.  The converter is built before the [try] block; its
    constructor takes no input and is taken not to throw. *)
Definition execute (url : jsstring) (signal : option AbortSignal)
  : M World ToolResult :=
  try_catch
    (early <- localStage url signal ;;
     match early with
     | Some result => ret result
     | None => jinaFallback url signal
     end)
    (fun error => ret (error_result (ERROR_TEXT error))).

End WithEnv.

End Tool.
Import Tool.

(* ================================================================== *)
(** ** The words of the specification *)

Module Spec.

(** The fixed keyword set of the Challenge Detector. *)
Definition challenge_keywords : list jsstring :=
  [js "challenge"; js "captcha"; js "cloudflare"; js "just a moment..."].

(** [body] contains [kw] in some letter case: a piece of it lower-cases to
    [kw]. *)
Definition contains_any_case (body kw : jsstring) : Prop :=
  exists pre w post, body = pre ++ w ++ post /\ toLowerCase w = kw.

(** The rule of the Structured-Payload Extractor for a string: longer than
    20 units, and beginning neither with a dollar sign nor with an at
    sign. *)
Definition begins_with (s : jsstring) (c : N) : Prop := exists r, s = c :: r.

Definition keep_rule (s : jsstring) : Prop :=
  (20 < List.length s)%nat /\ ~ begins_with s 36 /\ ~ begins_with s 64.

(** The same for the element of a sequence, which must not begin with an
    opening bracket either. *)
Definition keep_rule_item (s : jsstring) : Prop :=
  keep_rule s /\ ~ begins_with s 91.

Definition keep (s : jsstring) : bool :=
  (20 <? List.length s)%nat && sentinel_free s.

Definition keep_item (s : jsstring) : bool :=
  keep s && negb (startsWith s (js "[")).

(** The strings among the elements of a sequence, nested values left
    out. *)
Fixpoint top_level_strings (items : list JSON) : list jsstring :=
  match items with
  | [] => []
  | JString s :: rest => s :: top_level_strings rest
  | _ :: rest => top_level_strings rest
  end.

(** What a parsed payload contributes. *)
Definition value_fragments (v : JSON) : list jsstring :=
  match v with
  | JString p => if keep p then [p] else []
  | JArray items => filter keep_item (top_level_strings items)
  | _ => []
  end.

(** What the fallback scan contributes: the quoted literals that decode to
    a string the rule keeps. *)
Definition decoded_fragment (parse : jsstring -> option JSON) (m : jsstring)
  : list jsstring :=
  match parse m with
  | Some (JString c) => if keep c then [c] else []
  | _ => []
  end.

Definition fallback_fragments (parse : jsstring -> option JSON)
    (payload : jsstring) : list jsstring :=
  flat_map (decoded_fragment parse) (quoted_matches 0 payload).

(** What one line contributes. *)
Definition line_fragments (parse : jsstring -> option JSON) (line : jsstring)
  : list jsstring :=
  let trimmed := trim line in
  if is_empty trimmed || startsWith trimmed (js "#") then []
  else
    match rowMatch trimmed with
    | None => []
    | Some (_, payload) =>
        match parse payload with
        | Some v => value_fragments v
        | None => fallback_fragments parse payload
        end
    end.

(** A unit that stands for itself inside a string literal. *)
Definition plain_unit (c : N) : bool :=
  negb (c =? dquote)%N && negb (c =? backslash)%N && negb (c <? 32)%N.

(** A response is a redirect to [location]: its status is in [300,400)
    and it carries a [Location] header. *)
Definition redirect_to (res : IncomingMessage) (location : jsstring) : Prop :=
  exists code,
    res_statusCode res = Some code /\ (300 <= code < 400)%Z
    /\ res_location res = Some location /\ location <> [].

Section Chains.

Variables (env : Env) (headers : Headers) (signal : option AbortSignal).

(** The request for [url], the [n]-th of the invocation, is answered by
    [res]: the URL parses, the client takes the request, the signal is not
    set, and the transport delivers [res]. *)
Definition answers (n : nat) (url : jsstring) (res : IncomingMessage) : Prop :=
  exists protocol,
    URL_protocol env url = inr protocol
    /\ client_get env n (client_for protocol) url (requestHeaders env headers)
       = GetResponse res
    /\ aborted signal n = false.

(** [redirects n url k url']: starting with the [n]-th request, for [url],
    [k] responses in a row are redirects, the last of them to [url']. *)
Inductive redirects : nat -> jsstring -> nat -> jsstring -> Prop :=
| redirects_none (n : nat) (url : jsstring) : redirects n url 0 url
| redirects_hop (n : nat) (url : jsstring) (res : IncomingMessage)
    (location next : jsstring) (k : nat) (last : jsstring) :
    answers n url res ->
    redirect_to res location ->
    URL_resolve env location url = inr next ->
    redirects (S n) next k last ->
    redirects n url (S k) last.


End Chains.

(** The hop budgets of the calls to [fetchContent] in a trace. *)
Fixpoint budgets (events : list Event) : list Z :=
  match events with
  | [] => []
  | EvFetchContent _ maxRedirects :: rest => maxRedirects :: budgets rest
  | _ :: rest => budgets rest
  end.

(** The requests sent in a trace. *)
Fixpoint requested (events : list Event) : list jsstring :=
  match events with
  | [] => []
  | EvGet _ url _ :: rest => url :: requested rest
  | _ :: rest => requested rest
  end.


(** The events [fetchContent] makes. *)
Definition is_fetch_event (e : Event) : bool :=
  match e with
  | EvFetchContent _ _ | EvGet _ _ _ | EvDestroy _ => true
  | _ => false
  end.

(** The text of a result says that a path was blocked. *)
Definition says_blocked (t : jsstring) : bool :=
  includes (toLowerCase t) (js "blocked").

(** The text of the single content item of a result. *)
Definition result_text (r : ToolResult) : jsstring :=
  match content r with
  | [item] => text item
  | _ => []
  end.

(** The readability parser found a title. *)
Definition has_title (a : Article) : Prop :=
  exists c t, article_title a = Some (c :: t).

(** The readability parser found a content region of more than 100
    units. *)
Definition has_long_content (a : Article) : Prop :=
  exists html, article_content a = Some html /\ (100 < List.length html)%nat.

(** [m] appends [frags] to the array and returns normally. *)
Definition appends (m : M (list jsstring) unit) (frags : list jsstring)
  : Prop :=
  forall extracted, m extracted = (Val tt, extracted ++ frags).

(** The world after the call for [url] with budget [m] has sent its
    request. *)
Definition sent (env : Env) (w : World) (url : jsstring) (m : Z)
    (protocol : jsstring) (headers : Headers) : World :=
  {| requests := S (requests w);
     trace := trace w ++ [EvFetchContent url m;
                          EvGet (client_for protocol) url
                                (requestHeaders env headers)] |}.

End Spec.
Import Spec.

(* ================================================================== *)
(** ** Concrete inputs *)

Module Examples.

(** [s] between two double quotes. *)
Definition quoted (s : jsstring) : jsstring := [dquote] ++ s ++ [dquote].

(** The row [1:] followed by a quoted sentence of 40 units. *)
Definition long_sentence : jsstring :=
  js "hello world this is a long enough string".

Definition row_string : jsstring := js "1:" ++ quoted long_sentence.

(** The row [2:] followed by the array of a dollar sign, [div] and an
    object with [children] set to [short]. *)
Definition row_element : jsstring :=
  js "2:[" ++ quoted (js "$") ++ js "," ++ quoted (js "div") ++ js ",{"
  ++ quoted (js "children") ++ js ":" ++ quoted (js "short") ++ js "}]".







(** An array whose first element is a string of 28 units, and whose other
    elements hold strings of the same kind one level down. *)
Definition top_string : jsstring := js "a string at the top level...".

Definition nested_string : jsstring := js "a string one level down.....".

Definition payload_nested : jsstring :=
  js "[" ++ quoted top_string ++ js ",[" ++ quoted nested_string ++ js "],{"
  ++ quoted (js "k") ++ js ":" ++ quoted nested_string ++ js "}]".

Definition row_nested : jsstring := js "4:" ++ payload_nested.

Definition items_nested : list JSON :=
  [JString top_string; JArray [JString nested_string];
   JObject [(js "k", JString nested_string)]].

(** An object that holds a long string: valid JSON, neither a string nor
    an array. *)
Definition payload_object : jsstring :=
  js "{" ++ quoted (js "k") ++ js ":" ++ quoted nested_string ++ js "}".

Definition row_object : jsstring := js "5:" ++ payload_object.

End Examples.
Import Examples.

(* ================================================================== *)
(** ** Concrete collaborators *)

Module Scenarios.

Definition INVALID_URL : Exn := JsError (js "Invalid URL").

(** A stand-in for the [URL] class, for the absolute URLs the scenarios
    use: the protocol is read off the prefix, and a location whose host is
    an unclosed bracket is rejected, as any other text is. *)
Definition protocol_of (url : jsstring) : Exn + jsstring :=
  if startsWith url (js "http://[") then inl INVALID_URL
  else if startsWith url (js "https://") then inr (js "https:")
  else if startsWith url (js "http://") then inr (js "http:")
  else inl INVALID_URL.

Definition resolve (location base : jsstring) : Exn + jsstring :=
  match protocol_of location with
  | inr _ => inr location
  | inl e => inl e
  end.

Definition response (code : Z) (location : option jsstring)
    (ctype body : jsstring) : GetOutcome :=
  GetResponse {| res_statusCode := Some code;
                 res_location := location;
                 res_contentType := Some ctype;
                 res_chunks := [body] |}.

Definition is_url (url : jsstring) (s : string) : bool :=
  jsstring_eqb url (js s).

(** The sites of the scenarios. *)
Definition web (url : jsstring) : GetOutcome :=
  (* a chain of two redirects *)
  if is_url url "http://a.example/" then
    response 302 (Some (js "http://b.example/")) (js "text/html") []
  else if is_url url "http://b.example/" then
    response 301 (Some (js "https://c.example/")) (js "text/html") []
  else if is_url url "https://c.example/" then
    response 200 None (js "text/plain") (js "arrived")
  (* a redirect to itself *)
  else if is_url url "http://loop.example/" then
    response 302 (Some (js "http://loop.example/")) (js "text/html") []
  (* a redirect whose location is no URL *)
  else if is_url url "http://bad.example/" then
    response 302 (Some (js "http://[")) (js "text/html") []
  (* blocked here and at the proxy *)
  else if is_url url "http://blocked.example/" then
    response 503 None (js "text/html") (js "Service Unavailable")
  else if is_url url "https://r.jina.ai/http://blocked.example/" then
    response 200 None (js "text/plain") (js "Just a moment...")
  (* blocked here, and the proxy fails with a challenge page *)
  else if is_url url "http://refused.example/" then
    response 503 None (js "text/html") (js "Service Unavailable")
  else if is_url url "https://r.jina.ai/http://refused.example/" then
    response 500 None (js "text/html") (js "Please solve the CAPTCHA")
  (* blocked here, and the proxy answers with an empty body *)
  else if is_url url "http://quiet.example/" then
    response 503 None (js "text/html") (js "Service Unavailable")
  else if is_url url "https://r.jina.ai/http://quiet.example/" then
    response 200 None (js "text/plain") []
  else GetError (JsError (js "getaddrinfo ENOTFOUND")).

(** A document is its markup; the readability parser finds [article] in
    every document, and the converter leaves the markup as it is. *)
Definition env_with (article : option Article) : Env :=
  {| USER_AGENT := js "mypi/1.0.0 (+https://github.com/XYenon/mypi)";
     URL_protocol := protocol_of;
     URL_resolve := resolve;
     client_get := fun _ _ url _ => web url;
     Document := jsstring;
     JSDOM := fun data _ => inr data;
     Readability_parse := fun doc => inr (article, doc);
     script_texts := fun _ => [];
     turndown := fun html => inr html |}.

Definition web_env : Env := env_with None.

Definition start : World := {| requests := 0; trace := [] |}.

(** A signal that is set from the start. *)
Definition cancelled : option AbortSignal := Some (fun _ => true).

(** The responses of the chain. *)
Definition res_a : IncomingMessage :=
  {| res_statusCode := Some 302%Z;
     res_location := Some (js "http://b.example/");
     res_contentType := Some (js "text/html");
     res_chunks := [[]] |}.

Definition res_b : IncomingMessage :=
  {| res_statusCode := Some 301%Z;
     res_location := Some (js "https://c.example/");
     res_contentType := Some (js "text/html");
     res_chunks := [[]] |}.



(** An article without a title and with 101 units of content. *)
Definition html101 : jsstring := js "<p>" ++ repeat 97%N 94 ++ js "</p>".

Definition untitled : Article :=
  {| article_title := Some []; article_content := Some html101 |}.

(** An article with a title and the same content. *)
Definition titled : Article :=
  {| article_title := Some (js "Title"); article_content := Some html101 |}.

End Scenarios.
Import Scenarios.

(* ================================================================== *)
(** ** Results of the scenarios *)

Module Outcomes.

Definition unavailable : FetchResult :=
  {| data := js "Service Unavailable";
     contentType := js "text/html";
     statusCode := 503 |}.

Definition moment_page : FetchResult :=
  {| data := js "Just a moment...";
     contentType := js "text/plain";
     statusCode := 200 |}.

Definition captcha_page : FetchResult :=
  {| data := js "Please solve the CAPTCHA";
     contentType := js "text/html";
     statusCode := 500 |}.

Definition empty_page : FetchResult :=
  {| data := []; contentType := js "text/plain"; statusCode := 200 |}.

(** The world after the local fetch of [url] from [start]. *)
Definition after_local (url : jsstring) : World :=
  snd (fetchContent web_env url [] None 5 start).

(** The world after the proxy fetch that follows it. *)
Definition after_proxy (url : jsstring) : World :=
  snd (fetchContent web_env (jinaUrl url) [] None 5 (after_local url)).

Definition res_bad : IncomingMessage :=
  {| res_statusCode := Some 302%Z;
     res_location := Some (js "http://[");
     res_contentType := Some (js "text/html");
     res_chunks := [[]] |}.

End Outcomes.
Import Outcomes.

(* ================================================================== *)
(** ** Further vocabulary: what a run does to the world *)

Module Runs.

(** A request of the trace was made as the Fetcher makes it for the
    caller's [headers]: with the request headers built from them, and with
    the client that goes with the protocol of its URL. *)
Definition request_ok (env : Env) (headers : Headers) (ev : Event) : Prop :=
  match ev with
  | EvGet client url sent_headers =>
      sent_headers = requestHeaders env headers
      /\ exists protocol,
           URL_protocol env url = inr protocol
           /\ client = client_for protocol
  | _ => True
  end.

(** [w'] is [w] after [events]: the trace has grown by them, and the
    clock by the requests among them. *)
Definition extends_by (w w' : World) (events : list Event) : Prop :=
  trace w' = trace w ++ events
  /\ requests w' = (requests w + List.length (requested events))%nat.

(** Whatever the world, [m] sends at most [bound] requests, each of them
    well made. *)
Definition bounded_run {A : Type} (env : Env) (headers : Headers)
    (bound : nat) (m : M World A) : Prop :=
  forall w,
    exists events,
      extends_by w (snd (m w)) events
      /\ (List.length (requested events) <= bound)%nat
      /\ Forall (request_ok env headers) events.

(** The value of the header [k], if any. *)
Fixpoint header_value (k : jsstring) (hs : Headers) : option jsstring :=
  match hs with
  | [] => None
  | (k', v) :: hs' =>
      if jsstring_eqb k k' then Some v else header_value k hs'
  end.

(** The value an object literal listing [hs] in order gives to [k]: the
    last one. *)
Fixpoint last_value (k : jsstring) (hs : Headers) : option jsstring :=
  match hs with
  | [] => None
  | (k', v) :: hs' =>
      match last_value k hs' with
      | Some v' => Some v'
      | None => if jsstring_eqb k k' then Some v else None
      end
  end.

(** The default headers of a request. *)
Definition default_headers (env : Env) : Headers :=
  [(js "User-Agent", USER_AGENT env); (js "Accept", ACCEPT)].

End Runs.
Import Runs.

(* ================================================================== *)
(** ** Further vocabulary: the local path after its fetch *)

Module Stages.

(** Lines 143 to 203 of [execute], what [localStage] does with the result
    of the local fetch. *)
Definition afterFetch (env : Env) (url : jsstring) (fetched : FetchResult)
  : M World (option ToolResult) :=
  if isChallenge (statusCode fetched) (data fetched) then ret None
  else if (200 <=? statusCode fetched)%Z && (statusCode fetched <? 300)%Z
  then
    if includes (contentType fetched) (js "application/json")
       || includes (contentType fetched) (js "text/plain")
       || includes (contentType fetched) (js "text/markdown")
    then ret (Some (text_result (data fetched)))
    else
      early <-
        (if includes (contentType fetched) (js "text/x-component") then
           rscText <- call_parseRsc (data fetched) ;;
           if (50 <? List.length rscText)%nat
           then ret (Some (text_result rscText))
           else ret None
         else ret None) ;;
      match early with
      | Some result => ret (Some result)
      | None =>
          if includes (contentType fetched) (js "text/html")
          then htmlStage env (data fetched) url
          else ret None
      end
  else ret None.

(** The content type is one [execute] returns the body for as it is. *)
Definition passthrough_type (contentType : jsstring) : bool :=
  includes contentType (js "application/json")
  || includes contentType (js "text/plain")
  || includes contentType (js "text/markdown").

(** The marker [scanScripts] looks for. *)
Definition NEXT_MARKER : jsstring := js "self.__next_f.push".

(** A script [scanScripts] passes over without parsing it. *)
Definition lacks_marker (script : option jsstring) : Prop :=
  match script with
  | Some text => includes text NEXT_MARKER = false
  | None => True
  end.

(** A stage returns, when it returns a result, a result that is not
    error-flagged. *)
Definition returns_text (m : M World (option ToolResult)) : Prop :=
  forall w r w', m w = (Val (Some r), w') -> exists t, r = text_result t.

(** [w] after the events [evs], none of them a request. *)
Definition after (w : World) (evs : list Event) : World :=
  {| requests := requests w; trace := trace w ++ evs |}.

End Stages.
Import Stages.

(* ================================================================== *)
(** ** Further collaborators *)

Module Sites.

(** Two rows, of 40 and 28 kept units. *)
Definition rsc_body : jsstring := row_string ++ [10%N] ++ row_nested.

Definition web2 (url : jsstring) : GetOutcome :=
  (* a redirect to a host that does not exist *)
  if is_url url "http://moved.example/" then
    response 301 (Some (js "http://gone.example/")) (js "text/html") []
  (* markup served as plain text *)
  else if is_url url "http://plain.example/" then
    response 200 None (js "text/plain; charset=utf-8") (js "<b>as it is</b>")
  (* a component payload *)
  else if is_url url "http://rsc.example/" then
    response 200 None (js "text/x-component") rsc_body
  (* a page *)
  else if is_url url "http://article.example/" then
    response 200 None (js "text/html; charset=utf-8") (js "<html></html>")
  (* a page that is not there, and a proxy that fails *)
  else if is_url url "http://missing.example/" then
    response 404 None (js "text/html") (js "Not Found")
  else if is_url url "https://r.jina.ai/http://missing.example/" then
    response 502 None (js "text/html") (js "Bad Gateway")
  else web url.

(** Collaborators over [web2]: every location resolves to itself, the DOM
    library answers with [jsdom], the readability parser finds [article],
    and the converter leaves the markup as it is. *)
Definition site_env (jsdom : jsstring -> jsstring -> Exn + jsstring)
    (article : option Article) : Env :=
  {| USER_AGENT := js "mypi/1.0.0 (+https://github.com/XYenon/mypi)";
     URL_protocol := protocol_of;
     URL_resolve := fun location _ => inr location;
     client_get := fun _ _ url _ => web2 url;
     Document := jsstring;
     JSDOM := jsdom;
     Readability_parse := fun doc => inr (article, doc);
     script_texts := fun _ => [];
     turndown := fun html => inr html |}.

Definition lenient_env : Env := site_env (fun data _ => inr data) None.

Definition article_env : Env :=
  site_env (fun data _ => inr data) (Some titled).

Definition DOM_FAILURE : Exn := JsError (js "Invalid document").

Definition broken_env : Env := site_env (fun _ _ => inl DOM_FAILURE) None.

Definition res_moved : IncomingMessage :=
  {| res_statusCode := Some 301%Z;
     res_location := Some (js "http://gone.example/");
     res_contentType := Some (js "text/html");
     res_chunks := [[]] |}.

Definition res_missing : IncomingMessage :=
  {| res_statusCode := Some 404%Z;
     res_location := None;
     res_contentType := Some (js "text/html");
     res_chunks := [js "Not Found"] |}.

Definition ENOTFOUND : Exn := JsError (js "getaddrinfo ENOTFOUND").

(** The world after the local fetch of [url] from [start], in [env]. *)
Definition local_world (env : Env) (url : jsstring) : World :=
  snd (fetchContent env url [] None 5 start).

Definition local_result (env : Env) (url : jsstring) : Res FetchResult :=
  fst (fetchContent env url [] None 5 start).

Definition plain_page : FetchResult :=
  {| data := js "<b>as it is</b>";
     contentType := js "text/plain; charset=utf-8";
     statusCode := 200 |}.

Definition rsc_page : FetchResult :=
  {| data := rsc_body; contentType := js "text/x-component";
     statusCode := 200 |}.

Definition html_page : FetchResult :=
  {| data := js "<html></html>";
     contentType := js "text/html; charset=utf-8";
     statusCode := 200 |}.

Definition missing_page : FetchResult :=
  {| data := js "Not Found"; contentType := js "text/html";
     statusCode := 404 |}.

Definition gateway_page : FetchResult :=
  {| data := js "Bad Gateway"; contentType := js "text/html";
     statusCode := 502 |}.

End Sites.
Import Sites.

(* ================================================================== *)
(** ** Further inputs *)

Module Literals.





End Literals.
Import Literals.

(* ================================================================== *)
(** * Theorems *)

Unset Implicit Arguments.

(** ** Strings *)

Lemma startsWith_app (p r : jsstring) : startsWith (p ++ r) p = true.
Proof.
  induction p as [|c p IH]; simpl.
  - destruct r; reflexivity.
  - rewrite N.eqb_refl. exact IH.
Qed.

Lemma startsWith_inv (s p : jsstring) :
  startsWith s p = true -> exists r, s = p ++ r.
Proof.
  revert s. induction p as [|c p IH]; intros s H.
  - exists s. reflexivity.
  - destruct s as [|d s]; simpl in H; [discriminate|].
    apply andb_true_iff in H. destruct H as [Hc Hs].
    apply N.eqb_eq in Hc. subst d.
    destruct (IH _ Hs) as [r ->]. exists r. reflexivity.
Qed.

Lemma startsWith_nil (s : jsstring) : startsWith s [] = true.
Proof. destruct s; reflexivity. Qed.

Lemma includes_startsWith (s p : jsstring) :
  startsWith s p = true -> includes s p = true.
Proof. intros H. destruct s; cbn [includes]; rewrite H; reflexivity. Qed.

Lemma includes_app (a p b : jsstring) : includes (a ++ p ++ b) p = true.
Proof.
  induction a as [|c a IH].
  - cbn [app]. apply includes_startsWith, startsWith_app.
  - simpl. rewrite IH. apply orb_true_r.
Qed.

Lemma includes_inv (s p : jsstring) :
  includes s p = true -> exists a b, s = a ++ p ++ b.
Proof.
  induction s as [|c s IH]; intros H.
  - cbn [includes] in H. rewrite orb_false_r in H.
    destruct (startsWith_inv _ _ H) as [r Hr]. exists [], r. exact Hr.
  - cbn [includes] in H. apply orb_true_iff in H. destruct H as [H|H].
    + destruct (startsWith_inv (c :: s) p H) as [r Hr]. exists [], r. exact Hr.
    + destruct (IH H) as (a & b & ->). exists (c :: a), b. reflexivity.
Qed.

Lemma includes_iff (s p : jsstring) :
  includes s p = true <-> exists a b, s = a ++ p ++ b.
Proof.
  split; [apply includes_inv|]. intros (a & b & ->). apply includes_app.
Qed.

Lemma toLowerCase_app (a b : jsstring) :
  toLowerCase (a ++ b) = toLowerCase a ++ toLowerCase b.
Proof. apply map_app. Qed.

(** A lower-cased body contains [kw] exactly when the body contains it in
    some letter case. *)
Lemma includes_toLowerCase (body kw : jsstring) :
  includes (toLowerCase body) kw = true <-> contains_any_case body kw.
Proof.
  rewrite includes_iff. split.
  - intros (a & b & H). unfold toLowerCase in H.
    apply map_eq_app in H. destruct H as (pre & rest & -> & <- & H).
    apply map_eq_app in H. destruct H as (w & post & -> & <- & <-).
    exists pre, w, post. split; reflexivity.
  - intros (pre & w & post & -> & <-).
    exists (toLowerCase pre), (toLowerCase post).
    now rewrite !toLowerCase_app.
Qed.

(** ** The fuel of [JSON.parse] *)

Lemma skip_ws_length (s : jsstring) :
  (List.length (skip_ws s) <= List.length s)%nat.
Proof.
  induction s as [|c s IH]; cbn [skip_ws]; [lia|].
  destruct (is_ws c); cbn [List.length]; lia.
Qed.

Lemma skip_ws_cons_length (s : jsstring) (c : N) (t : jsstring) :
  skip_ws s = c :: t -> (List.length t < List.length s)%nat.
Proof.
  intros H. pose proof (skip_ws_length s) as L. rewrite H in L.
  cbn [List.length] in L. lia.
Qed.

Lemma parse_string_chars_length (n : nat) :
  forall s str r,
    (List.length s <= n)%nat ->
    parse_string_chars s = Some (str, r) ->
    (List.length r < List.length s)%nat.
Proof.
  induction n as [|n IH]; intros s str r Hn H.
  - destruct s; [discriminate | cbn [List.length] in Hn; lia].
  - destruct s as [|c t]; [discriminate|]. cbn [parse_string_chars] in H.
    cbn [List.length] in *.
    destruct (c =? dquote)%N.
    { injection H as _ <-. lia. }
    destruct (c =? backslash)%N.
    { destruct t as [|e t']; [discriminate|]. cbn [List.length] in *.
      destruct (e =? 117)%N.
      - destruct t' as [|h1 [|h2 [|h3 [|h4 t'']]]]; try discriminate.
        cbn [List.length] in *.
        destruct (hex4 h1 h2 h3 h4); [|discriminate].
        destruct (parse_string_chars t'') as [[str' r']|] eqn:E;
          [|discriminate].
        injection H as _ <-.
        specialize (IH t'' str' r' ltac:(lia) E). lia.
      - destruct (escape_unit e); [|discriminate].
        destruct (parse_string_chars t') as [[str' r']|] eqn:E;
          [|discriminate].
        injection H as _ <-.
        specialize (IH t' str' r' ltac:(lia) E). lia. }
    destruct (c <? 32)%N; [discriminate|].
    destruct (parse_string_chars t) as [[str' r']|] eqn:E; [|discriminate].
    injection H as _ <-.
    specialize (IH t str' r' ltac:(lia) E). lia.
Qed.

Lemma span_digits_length (s : jsstring) :
  (List.length (snd (span_digits s)) <= List.length s)%nat.
Proof.
  induction s as [|c s IH]; cbn [span_digits]; [cbn; lia|].
  destruct (is_digit c); [|cbn; lia].
  destruct (span_digits s) as [ds r]. cbn [snd List.length] in *. lia.
Qed.

Lemma digits1_length (s ds r : jsstring) :
  digits1 s = Some (ds, r) -> (List.length r <= List.length s)%nat.
Proof.
  unfold digits1. pose proof (span_digits_length s) as L.
  destruct (span_digits s) as [[|d ds'] r']; [discriminate|].
  intros [= _ <-]. exact L.
Qed.

Lemma parse_number_length (s lit r : jsstring) :
  parse_number s = Some (lit, r) -> (List.length r < List.length s)%nat.
Proof.
  unfold parse_number.
  set (p := match s with
            | c :: t => if (c =? 45)%N then ([c], t) else ([], s)
            | [] => ([], s)
            end).
  assert (Hp : (List.length (snd p) <= List.length s)%nat).
  { subst p. destruct s as [|c t]; [cbn; lia|].
    destruct (c =? 45)%N; cbn; lia. }
  destruct p as [sign s1]. cbn [snd] in Hp.
  destruct (parse_int_part s1) as [[i s2]|] eqn:Ei; [|discriminate].
  assert (H2 : (List.length s2 < List.length s1)%nat).
  { unfold parse_int_part in Ei. destruct s1 as [|c t]; [discriminate|].
    destruct (c =? 48)%N; [injection Ei as _ <-; cbn; lia|].
    destruct (is_digit c); [|discriminate].
    pose proof (span_digits_length t) as L.
    destruct (span_digits t) as [ds r']. injection Ei as _ <-.
    cbn [snd List.length] in *. lia. }
  destruct (parse_fraction s2) as [[f s3]|] eqn:Ef; [|discriminate].
  assert (H3 : (List.length s3 <= List.length s2)%nat).
  { unfold parse_fraction in Ef. destruct s2 as [|c t].
    - injection Ef as _ <-. lia.
    - destruct (c =? 46)%N.
      + destruct (digits1 t) as [[ds r']|] eqn:Ed; [|discriminate].
        injection Ef as _ <-. apply digits1_length in Ed.
        cbn [List.length]. lia.
      + injection Ef as _ <-. lia. }
  destruct (parse_exponent s3) as [[e s4]|] eqn:Ee; [|discriminate].
  assert (H4 : (List.length s4 <= List.length s3)%nat).
  { unfold parse_exponent in Ee. destruct s3 as [|c t].
    - injection Ee as _ <-. lia.
    - destruct ((c =? 101) || (c =? 69))%N.
      + set (q := match t with
                  | g :: u =>
                      if ((g =? 43) || (g =? 45))%N then ([g], u) else ([], t)
                  | [] => ([], t)
                  end) in Ee.
        assert (Hq : (List.length (snd q) <= List.length t)%nat).
        { subst q. destruct t as [|g u]; [cbn; lia|].
          destruct ((g =? 43) || (g =? 45))%N; cbn; lia. }
        destruct q as [sg t']. cbn [snd] in Hq.
        destruct (digits1 t') as [[ds r']|] eqn:Ed; [|discriminate].
        injection Ee as _ <-. apply digits1_length in Ed.
        cbn [List.length]. lia.
      + injection Ee as _ <-. lia. }
  intros [= _ <-]. lia.
Qed.

Lemma keyword_length (word s r : jsstring) :
  word <> [] -> keyword word s = Some r ->
  (List.length r < List.length s)%nat.
Proof.
  unfold keyword. intros Hw.
  destruct (startsWith s word) eqn:E; [|discriminate].
  intros [= <-]. apply startsWith_inv in E. destruct E as [rest ->].
  rewrite length_skipn, length_app.
  destruct word; [now destruct Hw | cbn [List.length]; lia].
Qed.

Section LoopFuel.

Variables value1 value2 : jsstring -> option (JSON * jsstring).
Variable bound : nat.

Hypothesis agree :
  forall s, (List.length s <= bound)%nat -> value1 s = value2 s.

Hypothesis consumes :
  forall s v r, value2 s = Some (v, r) -> (List.length r < List.length s)%nat.

Lemma parse_elements_stable (k1 : nat) :
  forall k2 s,
    (List.length s <= bound)%nat ->
    (List.length s < k1)%nat -> (List.length s < k2)%nat ->
    parse_elements value1 k1 s = parse_elements value2 k2 s.
Proof.
  induction k1 as [|k1 IH]; intros k2 s Hb H1 H2; [lia|].
  destruct k2 as [|k2]; [lia|]. cbn [parse_elements].
  rewrite (agree s Hb).
  destruct (value2 s) as [[v r]|] eqn:E; [|reflexivity].
  apply consumes in E.
  destruct (skip_ws r) as [|c r'] eqn:Er; [reflexivity|].
  apply skip_ws_cons_length in Er.
  destruct (c =? 44)%N; [|reflexivity].
  now rewrite (IH k2 r' ltac:(lia) ltac:(lia) ltac:(lia)).
Qed.

Lemma parse_elements_length (k : nat) :
  forall s vs r,
    parse_elements value2 k s = Some (vs, r) ->
    (List.length r < List.length s)%nat.
Proof.
  induction k as [|k IH]; intros s vs r H; [discriminate|].
  cbn [parse_elements] in H.
  destruct (value2 s) as [[v r0]|] eqn:E; [|discriminate].
  apply consumes in E.
  destruct (skip_ws r0) as [|c r'] eqn:Er; [discriminate|].
  apply skip_ws_cons_length in Er.
  destruct (c =? 44)%N.
  - destruct (parse_elements value2 k r') as [[vs' r'']|] eqn:E';
      [|discriminate].
    injection H as _ <-. apply IH in E'. lia.
  - destruct (c =? 93)%N; [|discriminate]. injection H as _ <-. lia.
Qed.

Lemma parse_members_stable (k1 : nat) :
  forall k2 s,
    (List.length s <= bound)%nat ->
    (List.length s < k1)%nat -> (List.length s < k2)%nat ->
    parse_members value1 k1 s = parse_members value2 k2 s.
Proof.
  induction k1 as [|k1 IH]; intros k2 s Hb H1 H2; [lia|].
  destruct k2 as [|k2]; [lia|]. cbn [parse_members].
  destruct (skip_ws s) as [|q s1] eqn:E0; [reflexivity|].
  apply skip_ws_cons_length in E0.
  destruct (q =? dquote)%N; [|reflexivity].
  destruct (parse_string_chars s1) as [[key s2]|] eqn:Ek; [|reflexivity].
  apply (parse_string_chars_length (List.length s1) s1 key s2 (le_n _)) in Ek.
  destruct (skip_ws s2) as [|c s3] eqn:E2; [reflexivity|].
  apply skip_ws_cons_length in E2.
  destruct (c =? 58)%N; [|reflexivity].
  rewrite (agree s3 ltac:(lia)).
  destruct (value2 s3) as [[v r]|] eqn:E; [|reflexivity].
  apply consumes in E.
  destruct (skip_ws r) as [|d r'] eqn:Er; [reflexivity|].
  apply skip_ws_cons_length in Er.
  destruct (d =? 44)%N; [|reflexivity].
  now rewrite (IH k2 r' ltac:(lia) ltac:(lia) ltac:(lia)).
Qed.

Lemma parse_members_length (k : nat) :
  forall s ms r,
    parse_members value2 k s = Some (ms, r) ->
    (List.length r < List.length s)%nat.
Proof.
  induction k as [|k IH]; intros s ms r H; [discriminate|].
  cbn [parse_members] in H.
  destruct (skip_ws s) as [|q s1] eqn:E0; [discriminate|].
  apply skip_ws_cons_length in E0.
  destruct (q =? dquote)%N; [|discriminate].
  destruct (parse_string_chars s1) as [[key s2]|] eqn:Ek; [|discriminate].
  apply (parse_string_chars_length (List.length s1) s1 key s2 (le_n _)) in Ek.
  destruct (skip_ws s2) as [|c s3] eqn:E2; [discriminate|].
  apply skip_ws_cons_length in E2.
  destruct (c =? 58)%N; [|discriminate].
  destruct (value2 s3) as [[v r0]|] eqn:E; [|discriminate].
  apply consumes in E.
  destruct (skip_ws r0) as [|d r'] eqn:Er; [discriminate|].
  apply skip_ws_cons_length in Er.
  destruct (d =? 44)%N.
  - destruct (parse_members value2 k r') as [[ms' r'']|] eqn:E';
      [|discriminate].
    injection H as _ <-. apply IH in E'. lia.
  - destruct (d =? 125)%N; [|discriminate]. injection H as _ <-. lia.
Qed.

End LoopFuel.

(** A value that is parsed leaves less than it was given. *)
Lemma parse_value_length (n : nat) :
  forall s v r,
    parse_value n s = Some (v, r) -> (List.length r < List.length s)%nat.
Proof.
  induction n as [|n IH]; intros s v r H; [discriminate|].
  cbn [parse_value] in H.
  destruct (skip_ws s) as [|c t] eqn:E0; [discriminate|].
  pose proof (skip_ws_length s) as L0. rewrite E0 in L0.
  cbn [List.length] in L0.
  destruct (c =? dquote)%N.
  { destruct (parse_string_chars t) as [[str r']|] eqn:E; [|discriminate].
    injection H as _ <-.
    apply (parse_string_chars_length (List.length t) t str r' (le_n _)) in E.
    lia. }
  destruct (c =? 91)%N.
  { destruct (skip_ws t) as [|d r0] eqn:E1; [discriminate|].
    pose proof (skip_ws_length t) as L1. rewrite E1 in L1.
    cbn [List.length] in L1.
    destruct (d =? 93)%N; [injection H as _ <-; lia|].
    destruct (parse_elements (parse_value n) n (d :: r0)) as [[vs r']|] eqn:E;
      [|discriminate].
    injection H as _ <-.
    apply (parse_elements_length (parse_value n) IH) in E.
    cbn [List.length] in E. lia. }
  destruct (c =? 123)%N.
  { destruct (skip_ws t) as [|d r0] eqn:E1; [discriminate|].
    pose proof (skip_ws_length t) as L1. rewrite E1 in L1.
    cbn [List.length] in L1.
    destruct (d =? 125)%N; [injection H as _ <-; lia|].
    destruct (parse_members (parse_value n) n (d :: r0)) as [[ms r']|] eqn:E;
      [|discriminate].
    injection H as _ <-.
    apply (parse_members_length (parse_value n) IH) in E.
    cbn [List.length] in E. lia. }
  destruct (c =? 116)%N.
  { destruct (keyword (js "true") (c :: t)) as [r'|] eqn:E; [|discriminate].
    injection H as _ <-. apply keyword_length in E; [|discriminate].
    cbn [List.length] in E. lia. }
  destruct (c =? 102)%N.
  { destruct (keyword (js "false") (c :: t)) as [r'|] eqn:E; [|discriminate].
    injection H as _ <-. apply keyword_length in E; [|discriminate].
    cbn [List.length] in E. lia. }
  destruct (c =? 110)%N.
  { destruct (keyword (js "null") (c :: t)) as [r'|] eqn:E; [|discriminate].
    injection H as _ <-. apply keyword_length in E; [|discriminate].
    cbn [List.length] in E. lia. }
  destruct (parse_number (c :: t)) as [[lit r']|] eqn:E; [|discriminate].
  injection H as _ <-. apply parse_number_length in E.
  cbn [List.length] in E. lia.
Qed.

(** Fuel above the length of the input is never used up: any larger
    amount gives the same result. *)
Lemma parse_value_stable (n : nat) :
  forall s m,
    (List.length s < n)%nat -> (n <= m)%nat ->
    parse_value m s = parse_value n s.
Proof.
  induction n as [|n IH]; intros s m Hs Hm; [lia|].
  destruct m as [|m]; [lia|]. cbn [parse_value].
  destruct (skip_ws s) as [|c t] eqn:E0; [reflexivity|].
  apply skip_ws_cons_length in E0.
  destruct (c =? dquote)%N; [reflexivity|].
  destruct (c =? 91)%N.
  { destruct (skip_ws t) as [|d r0] eqn:E1; [reflexivity|].
    apply skip_ws_cons_length in E1.
    destruct (d =? 93)%N; [reflexivity|].
    rewrite (parse_elements_stable (parse_value m) (parse_value n)
               (List.length (d :: r0))
               (fun s' Hs' => IH s' m ltac:(cbn [List.length] in *; lia)
                                ltac:(lia))
               (parse_value_length n)
               m n (d :: r0) (le_n _)
               ltac:(cbn [List.length]; lia) ltac:(cbn [List.length]; lia)).
    reflexivity. }
  destruct (c =? 123)%N.
  { destruct (skip_ws t) as [|d r0] eqn:E1; [reflexivity|].
    apply skip_ws_cons_length in E1.
    destruct (d =? 125)%N; [reflexivity|].
    rewrite (parse_members_stable (parse_value m) (parse_value n)
               (List.length (d :: r0))
               (fun s' Hs' => IH s' m ltac:(cbn [List.length] in *; lia)
                                ltac:(lia))
               (parse_value_length n)
               m n (d :: r0) (le_n _)
               ltac:(cbn [List.length]; lia) ltac:(cbn [List.length]; lia)).
    reflexivity. }
  reflexivity.
Qed.

(** [JSON_parse] does not depend on the fuel it gives. *)
Lemma JSON_parse_fuel (text : jsstring) (m : nat) :
  (List.length text < m)%nat ->
  JSON_parse text
  = match parse_value m text with
    | Some (v, r) =>
        match skip_ws r with
        | [] => Some v
        | _ :: _ => None
        end
    | None => None
    end.
Proof.
  intros H. unfold JSON_parse.
  now rewrite (parse_value_stable (S (List.length text)) text m
                 ltac:(lia) ltac:(lia)).
Qed.

(** ** The Challenge Detector *)

Lemma isChallenge_200 (body : jsstring) :
  isChallenge 200 body
  = existsb (fun kw => includes (toLowerCase body) kw) challenge_keywords.
Proof.
  unfold isChallenge. set (lowerData := toLowerCase body).
  cbv [challenge_keywords existsb].
  destruct (includes lowerData (js "challenge")),
    (includes lowerData (js "captcha")),
    (includes lowerData (js "cloudflare")),
    (includes lowerData (js "just a moment...")); reflexivity.
Qed.

Lemma isChallenge_status (body : jsstring) :
  isChallenge 403 body = true /\ isChallenge 429 body = true
  /\ isChallenge 503 body = true.
Proof. repeat split; reflexivity. Qed.

Lemma jinaBlocked_keywords (body : jsstring) :
  jinaBlocked body
  = existsb (fun kw => includes (toLowerCase body) kw) challenge_keywords.
Proof.
  unfold jinaBlocked. set (jinaLower := toLowerCase body).
  cbv [challenge_keywords existsb]. now rewrite orb_false_r, !orb_assoc.
Qed.

Lemma jinaBlocked_iff (body : jsstring) :
  jinaBlocked body = true
  <-> exists kw, In kw challenge_keywords /\ contains_any_case body kw.
Proof.
  rewrite jinaBlocked_keywords, existsb_exists.
  split; intros (kw & Hin & H); exists kw; (split; [exact Hin|]);
    now apply includes_toLowerCase.
Qed.

(** C3.  The detector answers true for the status codes 403, 429 and 503
    whatever the body is; for status 200 it answers true when the body
    contains one of the four keywords in some letter case, and false when
    it contains none of them in any letter case. *)
Theorem isChallenge_rule :
  (forall body,
      isChallenge 403 body = true /\ isChallenge 429 body = true
      /\ isChallenge 503 body = true)
  /\ (forall body,
         (exists kw, In kw challenge_keywords /\ contains_any_case body kw) ->
         isChallenge 200 body = true)
  /\ (forall body,
         (forall kw, In kw challenge_keywords -> ~ contains_any_case body kw) ->
         isChallenge 200 body = false).
Proof.
  split; [|split].
  - exact isChallenge_status.
  - intros body (kw & Hin & Hc). rewrite isChallenge_200.
    apply existsb_exists. exists kw. split; [exact Hin|].
    now apply includes_toLowerCase.
  - intros body H. rewrite isChallenge_200.
    destruct (existsb _ _) eqn:E; [|reflexivity].
    apply existsb_exists in E. destruct E as (kw & Hin & Hc).
    apply includes_toLowerCase in Hc. now destruct (H kw Hin).
Qed.

Lemma isChallenge_rule_witness :
  isChallenge 503 [] = true
  /\ isChallenge 200 (js "Please solve the CAPTCHA") = true
  /\ isChallenge 200 (js "hello world") = false.
Proof.
  destruct isChallenge_rule as (Hstatus & Hkeyword & Hnone).
  split; [|split].
  - apply (Hstatus []).
  - apply Hkeyword. exists (js "captcha"). split.
    + cbn. tauto.
    + exists (js "Please solve the "), (js "CAPTCHA"), []. split; reflexivity.
  - apply Hnone. intros kw Hin Hc. apply includes_toLowerCase in Hc.
    cbn in Hin. destruct Hin as [<-|[<-|[<-|[<-|[]]]]]; discriminate.
Defined.

(** ** The Structured-Payload Extractor *)

Section Appends.

Lemma appends_ret : appends (ret tt) [].
Proof. intros e. unfold ret. now rewrite app_nil_r. Qed.

Lemma appends_push (x : jsstring) : appends (push x) [x].
Proof. intros e. reflexivity. Qed.

Lemma appends_bind (m k : M (list jsstring) unit) (f g : list jsstring) :
  appends m f -> appends k g -> appends (m ;; k) (f ++ g).
Proof.
  intros Hm Hk e. unfold bind. rewrite Hm, Hk. now rewrite app_assoc.
Qed.

Lemma appends_for_of {A} (xs : list A) (body : A -> M (list jsstring) unit)
    (frag : A -> list jsstring) :
  (forall x, appends (body x) (frag x)) ->
  appends (for_of xs body) (flat_map frag xs).
Proof.
  intros H. induction xs as [|x xs IH]; simpl.
  - apply appends_ret.
  - apply appends_bind; [apply H | exact IH].
Qed.

End Appends.

Section Extractor.

Variable parse : jsstring -> option JSON.

Lemma keep_item_appends (i : jsstring) :
  appends
    (if (20 <? List.length i)%nat then
       if sentinel_free i && negb (startsWith i (js "["))
       then push i else ret tt
     else ret tt)
    (if keep_item i then [i] else []).
Proof.
  unfold keep_item, keep.
  destruct (20 <? List.length i)%nat; cbn [andb].
  - destruct (sentinel_free i && negb (startsWith i (js "[")));
      [apply appends_push | apply appends_ret].
  - apply appends_ret.
Qed.

Lemma keep_appends (c : jsstring) :
  appends
    (if (20 <? List.length c)%nat then
       if sentinel_free c then push c else ret tt
     else ret tt)
    (if keep c then [c] else []).
Proof.
  unfold keep.
  destruct (20 <? List.length c)%nat; cbn [andb].
  - destruct (sentinel_free c); [apply appends_push | apply appends_ret].
  - apply appends_ret.
Qed.

Lemma filter_top_level_strings (items : list JSON) :
  flat_map (fun item => match item with
                        | JString i => if keep_item i then [i] else []
                        | _ => []
                        end) items
  = filter keep_item (top_level_strings items).
Proof.
  induction items as [|item items IH]; [reflexivity|].
  destruct item; simpl; rewrite IH; try reflexivity.
  destruct (keep_item s); reflexivity.
Qed.

(** The [try] block when the payload parses. *)
Lemma tryPayload_parsed (payload : jsstring) (v : JSON) :
  parse payload = Some v ->
  appends (tryPayload parse payload) (value_fragments v).
Proof.
  intros Hp e. unfold tryPayload, JSON_parse_or_throw, bind. rewrite Hp.
  unfold ret at 1. destruct v; try apply appends_ret.
  - apply keep_appends.
  - cbn [value_fragments]. rewrite <- filter_top_level_strings.
    apply appends_for_of. intros [ | | |i| | ]; try apply appends_ret.
    apply keep_item_appends.
Qed.

(** The [try] block when the parser throws: nothing was pushed. *)
Lemma tryPayload_throws (payload : jsstring) (extracted : list jsstring) :
  parse payload = None ->
  tryPayload parse payload extracted
  = (Thrown (JsError (js "SyntaxError")), extracted).
Proof.
  intros Hp. unfold tryPayload, JSON_parse_or_throw, bind. now rewrite Hp.
Qed.

Lemma catchPayload_appends (payload : jsstring) :
  appends (catchPayload parse payload) (fallback_fragments parse payload).
Proof.
  unfold catchPayload, fallback_fragments, stringMatches.
  assert (H : forall ms,
             appends
               (for_of ms (fun m =>
                  try_catch
                    (content <- JSON_parse_or_throw parse m ;;
                     match content with
                     | JString c =>
                         if (20 <? List.length c)%nat then
                           if sentinel_free c then push c else ret tt
                         else ret tt
                     | _ => ret tt
                     end)
                    (fun _ => ret tt)))
               (flat_map (decoded_fragment parse) ms)).
  { intros ms. apply appends_for_of. intros m e.
    unfold try_catch, bind, JSON_parse_or_throw, decoded_fragment.
    destruct (parse m) as [v|].
    - unfold ret at 1. destruct v; try (apply appends_ret).
      pose proof (keep_appends s e) as K. now rewrite K.
    - unfold throw. apply appends_ret. }
  destruct (quoted_matches 0 payload) as [|m ms] eqn:E.
  - apply appends_ret.
  - apply H.
Qed.

(** One line of the loop appends what the specification says it
    contributes. *)
Lemma parseRsc_line_appends (line : jsstring) :
  appends (parseRsc_line parse line) (line_fragments parse line).
Proof.
  unfold parseRsc_line, line_fragments. cbv zeta.
  destruct (is_empty (trim line) || startsWith (trim line) (js "#"));
    [apply appends_ret|].
  destruct (rowMatch (trim line)) as [[idx payload]|]; [|apply appends_ret].
  intros e. unfold try_catch.
  destruct (parse payload) as [v|] eqn:Hp.
  - now rewrite (tryPayload_parsed payload v Hp e).
  - rewrite (tryPayload_throws payload e Hp). apply catchPayload_appends.
Qed.

(** [parseRsc] as a pure function of its input. *)
Lemma parseRsc_with_eq (data : jsstring) :
  parseRsc_with parse data
  = Val (join [10; 10]%N (flat_map (line_fragments parse) (split 10 data))).
Proof.
  unfold parseRsc_with. cbv zeta. unfold bind at 1.
  rewrite (appends_for_of (split 10 data) (parseRsc_line parse)
             (line_fragments parse) parseRsc_line_appends []).
  reflexivity.
Qed.

End Extractor.

(** *** The rule for one string *)

Lemma startsWith_unit (s : jsstring) (c : N) :
  startsWith s [c] = true <-> begins_with s c.
Proof.
  unfold begins_with. split.
  - intros H. apply startsWith_inv in H. destruct H as [r ->]. now exists r.
  - intros [r ->]. simpl. rewrite N.eqb_refl. now destruct r.
Qed.

Lemma keep_iff (s : jsstring) : keep s = true <-> keep_rule s.
Proof.
  unfold keep, keep_rule, sentinel_free.
  rewrite !andb_true_iff, !negb_true_iff, Nat.ltb_lt.
  rewrite <- (startsWith_unit s 36), <- (startsWith_unit s 64).
  change (js "$") with [36%N]. change (js "@") with [64%N].
  split; intros (H1 & H2 & H3); repeat split; try assumption;
    try (now apply not_true_iff_false); now apply not_true_is_false.
Qed.

Lemma keep_item_iff (s : jsstring) : keep_item s = true <-> keep_rule_item s.
Proof.
  unfold keep_item, keep_rule_item.
  rewrite andb_true_iff, negb_true_iff, keep_iff.
  rewrite <- (startsWith_unit s 91). change (js "[") with [91%N].
  split; intros [H1 H2]; split; try assumption;
    try (now apply not_true_iff_false); now apply not_true_is_false.
Qed.

(** *** A matched row is neither blank nor a comment *)

Lemma rowMatch_not_skipped (trimmed idx payload : jsstring) :
  rowMatch trimmed = Some (idx, payload) ->
  is_empty trimmed || startsWith trimmed (js "#") = false.
Proof.
  unfold rowMatch. destruct trimmed as [|c t]; [discriminate|].
  cbn [span_digits]. destruct (is_digit c) eqn:D; [|discriminate].
  intros _. cbn [is_empty orb]. change (js "#") with [35%N].
  cbn [startsWith]. unfold is_digit in D.
  apply andb_true_iff in D. destruct D as [D _]. apply N.leb_le in D.
  destruct (35 =? c)%N eqn:E; [|reflexivity].
  apply N.eqb_eq in E. lia.
Qed.

Lemma line_fragments_row (parse : jsstring -> option JSON)
    (line idx payload : jsstring) :
  rowMatch (trim line) = Some (idx, payload) ->
  line_fragments parse line
  = match parse payload with
    | Some v => value_fragments v
    | None => fallback_fragments parse payload
    end.
Proof.
  intros H. unfold line_fragments. cbv zeta.
  now rewrite (rowMatch_not_skipped _ _ _ H), H.
Qed.

(** *** The fallback scan finds an embedded literal *)

Lemma plain_unit_inv (c : N) :
  plain_unit c = true ->
  (c =? dquote)%N = false /\ (c =? backslash)%N = false /\ (c <? 32)%N = false.
Proof.
  unfold plain_unit. rewrite !andb_true_iff, !negb_true_iff. tauto.
Qed.


Lemma parse_string_chars_plain (body : jsstring) :
  forallb plain_unit body = true ->
  parse_string_chars (body ++ [dquote]) = Some (body, []).
Proof.
  induction body as [|c body IH]; intros H.
  - reflexivity.
  - cbn [forallb] in H. apply andb_true_iff in H. destruct H as [Hc Hb].
    destruct (plain_unit_inv _ Hc) as (Q & B & L).
    cbn [app parse_string_chars]. rewrite Q, B, L, (IH Hb). reflexivity.
Qed.


(** *** From the fragments to the output *)


Lemma parseRsc_line_row (line idx payload : jsstring)
    (extracted : list jsstring) :
  rowMatch (trim line) = Some (idx, payload) ->
  parseRsc_line JSON_parse line extracted
  = (Val tt,
     extracted ++ match JSON_parse payload with
                  | Some v => value_fragments v
                  | None => fallback_fragments JSON_parse payload
                  end).
Proof.
  intros H. rewrite (parseRsc_line_appends JSON_parse line extracted).
  now rewrite (line_fragments_row JSON_parse line idx payload H).
Qed.

Lemma split_one_line (sep : N) (s : jsstring) :
  ~ In sep s -> split sep s = [s].
Proof.
  induction s as [|c s IH]; intros H; cbn [split]; [reflexivity|].
  destruct (c =? sep)%N eqn:E.
  - apply N.eqb_eq in E. destruct H. now left.
  - rewrite IH; [reflexivity|]. intros Hin. apply H. now right.
Qed.










(** ** The extractor on a bounded stack *)

Lemma quoted_matches_on_cases (limit : nat) (s : jsstring) :
  forall skip,
    quoted_matches_on limit skip s = Val (quoted_matches skip s)
    \/ quoted_matches_on limit skip s = Thrown RANGE_ERROR.
Proof.
  induction s as [|c t IH]; intros skip; cbn [quoted_matches_on quoted_matches].
  - now left.
  - destruct skip as [|k]; [|apply IH].
    destruct (c =? dquote)%N; [|apply IH].
    destruct (limit <? quoted_body_steps t)%nat; [now right|].
    destruct (quoted_body t) as [b|]; [|apply IH].
    destruct (IH (List.length b)) as [-> | ->]; [now left | now right].
Qed.

Lemma quoted_body_steps_le (s : jsstring) :
  (quoted_body_steps s <= List.length s)%nat.
Proof.
  assert (H : forall n s, (List.length s <= n)%nat ->
                          (quoted_body_steps s <= List.length s)%nat).
  { intros n. induction n as [|n IH]; intros [|c t] L; cbn [List.length] in *;
      cbn [quoted_body_steps]; try lia.
    destruct (c =? dquote)%N; [lia|].
    destruct (c =? backslash)%N.
    - destruct t as [|e t']; [lia|]. cbn [List.length] in *.
      destruct (is_line_terminator e); [lia|].
      pose proof (IH t' ltac:(lia)). lia.
    - pose proof (IH t ltac:(lia)). lia. }
  exact (H (List.length s) s (Nat.le_refl _)).
Qed.

(** A payload no longer than the stack is scanned as on any engine. *)
Lemma quoted_matches_on_within (limit : nat) (s : jsstring) :
  (List.length s <= limit)%nat ->
  forall skip, quoted_matches_on limit skip s = Val (quoted_matches skip s).
Proof.
  induction s as [|c t IH]; intros L skip;
    cbn [quoted_matches_on quoted_matches]; [reflexivity|].
  cbn [List.length] in L.
  destruct skip as [|k]; [|apply IH; lia].
  destruct (c =? dquote)%N; [|apply IH; lia].
  pose proof (quoted_body_steps_le t) as S.
  destruct (Nat.ltb_spec limit (quoted_body_steps t)) as [F|_]; [lia|].
  destruct (quoted_body t) as [b|]; [|apply IH; lia].
  now rewrite (IH ltac:(lia) (List.length b)).
Qed.

Lemma stringMatches_on_cases (limit : nat) (payload : jsstring) :
  stringMatches_on limit payload = Val (stringMatches payload)
  \/ stringMatches_on limit payload = Thrown RANGE_ERROR.
Proof.
  unfold stringMatches_on, stringMatches.
  destruct (quoted_matches_on_cases limit payload 0) as [-> | ->];
    [left | now right].
  now destruct (quoted_matches 0 payload).
Qed.

Lemma stringMatches_on_within (limit : nat) (payload : jsstring) :
  (List.length payload <= limit)%nat ->
  stringMatches_on limit payload = Val (stringMatches payload).
Proof.
  intros L. unfold stringMatches_on, stringMatches.
  rewrite (quoted_matches_on_within limit payload L 0).
  now destruct (quoted_matches 0 payload).
Qed.

Section BoundedStack.

Variable parse : jsstring -> option JSON.
Variable limit : nat.

(** When [match] returns, the [catch] block is the one of any engine. *)
Lemma catchPayload_on_returns (payload : jsstring)
    (extracted : list jsstring) :
  stringMatches_on limit payload = Val (stringMatches payload) ->
  catchPayload_on parse limit payload extracted
  = catchPayload parse payload extracted.
Proof.
  intros H. unfold catchPayload_on, catchPayload, bind, lift. rewrite H.
  reflexivity.
Qed.

(** When [match] throws, nothing was pushed and the error goes on. *)
Lemma catchPayload_on_throws (payload : jsstring)
    (extracted : list jsstring) :
  stringMatches_on limit payload = Thrown RANGE_ERROR ->
  catchPayload_on parse limit payload extracted
  = (Thrown RANGE_ERROR, extracted).
Proof.
  intros H. unfold catchPayload_on, bind, lift. now rewrite H.
Qed.

Lemma parseRsc_line_on_cases (line : jsstring) (extracted : list jsstring) :
  parseRsc_line_on parse limit line extracted
  = parseRsc_line parse line extracted
  \/ parseRsc_line_on parse limit line extracted
     = (Thrown RANGE_ERROR, extracted).
Proof.
  unfold parseRsc_line_on, parseRsc_line. cbv zeta.
  destruct (is_empty (trim line) || startsWith (trim line) (js "#"));
    [now left|].
  destruct (rowMatch (trim line)) as [[idx payload]|]; [|now left].
  unfold try_catch.
  destruct (parse payload) as [v|] eqn:Hp.
  - left. now rewrite (tryPayload_parsed parse payload v Hp extracted).
  - rewrite (tryPayload_throws parse payload extracted Hp).
    destruct (stringMatches_on_cases limit payload) as [H|H].
    + left. now apply catchPayload_on_returns.
    + right. now apply catchPayload_on_throws.
Qed.

Lemma parseRsc_line_on_within (line : jsstring) (extracted : list jsstring) :
  (forall idx payload,
      rowMatch (trim line) = Some (idx, payload) ->
      (List.length payload <= limit)%nat) ->
  parseRsc_line_on parse limit line extracted
  = parseRsc_line parse line extracted.
Proof.
  intros L. unfold parseRsc_line_on, parseRsc_line. cbv zeta.
  destruct (is_empty (trim line) || startsWith (trim line) (js "#"));
    [reflexivity|].
  destruct (rowMatch (trim line)) as [[idx payload]|]; [|reflexivity].
  unfold try_catch.
  destruct (parse payload) as [v|] eqn:Hp;
    [now rewrite (tryPayload_parsed parse payload v Hp extracted)|].
  rewrite (tryPayload_throws parse payload extracted Hp).
  apply catchPayload_on_returns, stringMatches_on_within.
  now apply (L idx).
Qed.

Lemma for_of_lines_on_cases (lines : list jsstring) :
  forall extracted,
    for_of lines (parseRsc_line_on parse limit) extracted
    = for_of lines (parseRsc_line parse) extracted
    \/ exists extracted',
         for_of lines (parseRsc_line_on parse limit) extracted
         = (Thrown RANGE_ERROR, extracted').
Proof.
  induction lines as [|line lines IH]; intros extracted; cbn [for_of].
  - now left.
  - unfold bind.
    destruct (parseRsc_line_on_cases line extracted) as [-> | ->].
    + rewrite (parseRsc_line_appends parse line extracted). apply IH.
    + right. now exists extracted.
Qed.

Lemma for_of_lines_on_within (lines : list jsstring) :
  (forall line idx payload,
      In line lines ->
      rowMatch (trim line) = Some (idx, payload) ->
      (List.length payload <= limit)%nat) ->
  forall extracted,
    for_of lines (parseRsc_line_on parse limit) extracted
    = for_of lines (parseRsc_line parse) extracted.
Proof.
  induction lines as [|line lines IH]; intros L extracted; cbn [for_of];
    [reflexivity|].
  unfold bind.
  rewrite (parseRsc_line_on_within line extracted)
    by (intros idx payload; apply L; now left).
  rewrite (parseRsc_line_appends parse line extracted).
  apply IH. intros l idx payload Hin. apply L. now right.
Qed.

(** On a bounded stack [parseRsc] gives what it gives on any engine, or
    throws the [RangeError] of [match]: nothing else leaves it. *)
Lemma parseRsc_on_with_cases (data : jsstring) :
  parseRsc_on_with parse limit data = parseRsc_with parse data
  \/ parseRsc_on_with parse limit data = Thrown RANGE_ERROR.
Proof.
  unfold parseRsc_on_with, parseRsc_with. cbv zeta.
  destruct (for_of_lines_on_cases (split 10 data) []) as [E | [e' E]];
    [left | right]; unfold bind at 1; now rewrite E.
Qed.

(** When every payload fits the stack, the engine makes no difference. *)
Lemma parseRsc_on_with_within (data : jsstring) :
  (forall line idx payload,
      In line (split 10 data) ->
      rowMatch (trim line) = Some (idx, payload) ->
      (List.length payload <= limit)%nat) ->
  parseRsc_on_with parse limit data = parseRsc_with parse data.
Proof.
  intros L. unfold parseRsc_on_with, parseRsc_with. cbv zeta.
  unfold bind at 1.
  now rewrite (for_of_lines_on_within (split 10 data) L []).
Qed.

End BoundedStack.

(** What [parseRsc] returns on a bounded stack is what it returns on any
    engine. *)
Lemma parseRsc_on_returns (limit : nat) (data out : jsstring) :
  parseRsc_on limit data = Val out -> parseRsc data = Val out.
Proof.
  intros H. unfold parseRsc_on in H. unfold parseRsc.
  destruct (parseRsc_on_with_cases JSON_parse limit data) as [E|E];
    rewrite E in H; [exact H | discriminate].
Qed.

(** *** The row of the long literal *)

Lemma forallb_repeat {A : Type} (f : A -> bool) (x : A) (n : nat) :
  f x = true -> forallb f (repeat x n) = true.
Proof. intros H. induction n; cbn [repeat forallb]; [|rewrite H]; auto. Qed.

Lemma trimStart_head (c : N) (s : jsstring) :
  is_space c = false -> trimStart (c :: s) = c :: s.
Proof. intros H. cbn [trimStart]. now rewrite H. Qed.

Lemma trim_between (c d : N) (mid : jsstring) :
  is_space c = false -> is_space d = false ->
  trim (c :: mid ++ [d]) = c :: mid ++ [d].
Proof.
  intros Hc Hd. unfold trim, trimEnd. rewrite (trimStart_head c _ Hc).
  assert (R : rev (c :: mid ++ [d]) = d :: rev (c :: mid)).
  { change (c :: mid ++ [d]) with ((c :: mid) ++ [d]).
    now rewrite rev_app_distr. }
  rewrite R, (trimStart_head d _ Hd), <- R. apply rev_involutive.
Qed.

Lemma trim_long_literal_row (n : nat) :
  trim (long_literal_row n) = long_literal_row n.
Proof.
  unfold long_literal_row.
  change (js "1:{" ++ dquote :: repeat 97%N n ++ [dquote])
    with (49%N :: (58%N :: 123%N :: dquote :: repeat 97%N n) ++ [dquote]).
  now apply trim_between.
Qed.

Lemma rowMatch_long_literal_row (n : nat) :
  rowMatch (long_literal_row n)
  = Some (js "1", 123%N :: dquote :: repeat 97%N n ++ [dquote]).
Proof.
  unfold rowMatch, long_literal_row.
  change (span_digits (js "1:{" ++ dquote :: repeat 97%N n ++ [dquote]))
    with (js "1", 58%N :: 123%N :: dquote :: repeat 97%N n ++ [dquote]).
  cbv iota. rewrite N.eqb_refl. cbn [is_empty negb andb forallb].
  change (negb (is_line_terminator 123)) with true.
  change (negb (is_line_terminator dquote)) with true.
  cbn [andb]. rewrite forallb_app, (forallb_repeat _ 97%N n eq_refl).
  reflexivity.
Qed.

Lemma JSON_parse_long_literal (n : nat) :
  JSON_parse (123%N :: dquote :: repeat 97%N n ++ [dquote]) = None.
Proof.
  unfold JSON_parse. cbn [List.length parse_value].
  change (skip_ws (123%N :: dquote :: repeat 97%N n ++ [dquote]))
    with (123%N :: dquote :: repeat 97%N n ++ [dquote]).
  cbv iota.
  change (123 =? dquote)%N with false. change (123 =? 91)%N with false.
  change (123 =? 123)%N with true. cbv iota.
  change (skip_ws (dquote :: repeat 97%N n ++ [dquote]))
    with (dquote :: repeat 97%N n ++ [dquote]).
  cbv iota. change (dquote =? 125)%N with false. cbv iota.
  cbn [parse_members].
  change (skip_ws (dquote :: repeat 97%N n ++ [dquote]))
    with (dquote :: repeat 97%N n ++ [dquote]).
  cbv iota. rewrite N.eqb_refl.
  rewrite (parse_string_chars_plain (repeat 97%N n)
             (forallb_repeat plain_unit 97%N n eq_refl)).
  reflexivity.
Qed.

Lemma quoted_body_steps_plain (body post : jsstring) :
  forallb plain_unit body = true ->
  quoted_body_steps (body ++ dquote :: post) = List.length body.
Proof.
  induction body as [|c body IH]; intros H.
  - reflexivity.
  - cbn [forallb] in H. apply andb_true_iff in H. destruct H as [Hc Hb].
    destruct (plain_unit_inv _ Hc) as (Q & B & _).
    cbn [app quoted_body_steps List.length]. now rewrite Q, B, (IH Hb).
Qed.

Lemma stringMatches_on_long_literal (limit : nat) :
  stringMatches_on limit (123%N :: dquote :: repeat 97%N (S limit) ++ [dquote])
  = Thrown RANGE_ERROR.
Proof.
  unfold stringMatches_on. cbn [quoted_matches_on].
  change (123 =? dquote)%N with false. cbv iota. rewrite N.eqb_refl.
  rewrite (quoted_body_steps_plain (repeat 97%N (S limit)) []
             (forallb_repeat plain_unit 97%N (S limit) eq_refl)).
  rewrite repeat_length.
  destruct (Nat.ltb_spec limit (S limit)) as [_|F]; [reflexivity | lia].
Qed.

Lemma long_literal_row_one_line (n : nat) :
  split 10 (long_literal_row n) = [long_literal_row n].
Proof.
  apply split_one_line. unfold long_literal_row. intros H.
  apply in_app_or in H. destruct H as [H|H].
  - cbn in H. intuition discriminate.
  - destruct H as [H|H]; [discriminate|].
    apply in_app_or in H. destruct H as [H|H].
    + apply repeat_spec in H. discriminate.
    + cbn in H. intuition discriminate.
Qed.

(** C4, the failing input.  On an engine whose stack holds [limit] entries,
    take the one row whose payload is an open brace and a quoted literal of
    [limit + 1] letters.  The payload is no JSON, so the [catch] block of
    the loop body runs; the call of [match] in it, which stands outside the
    [try] of the inner loop, overflows the stack, and [parseRsc] throws a
    [RangeError] instead of returning a string.  This is the one exception
    that leaves [parseRsc]: a failure of the parser, on a payload or on a
    matched literal, is caught where it happens. *)
Theorem parseRsc_range_error :
  (forall limit,
      rowMatch (trim (long_literal_row (S limit)))
      = Some (js "1", 123%N :: dquote :: repeat 97%N (S limit) ++ [dquote])
      /\ JSON_parse (123%N :: dquote :: repeat 97%N (S limit) ++ [dquote])
         = None
      /\ parseRsc_on limit (long_literal_row (S limit)) = Thrown RANGE_ERROR)
  /\ parseRsc_on 30 (long_literal_row 31) = Thrown RANGE_ERROR
  /\ (forall parse limit data,
         (exists s, parseRsc_on_with parse limit data = Val s)
         \/ parseRsc_on_with parse limit data = Thrown RANGE_ERROR).
Proof.
  split; [|split].
  - intros limit. rewrite trim_long_literal_row. split; [|split].
    + apply rowMatch_long_literal_row.
    + apply JSON_parse_long_literal.
    + unfold parseRsc_on, parseRsc_on_with. cbv zeta.
      rewrite long_literal_row_one_line. cbn [for_of]. unfold bind at 1 2.
      unfold parseRsc_line_on. cbv zeta.
      rewrite trim_long_literal_row.
      rewrite (rowMatch_not_skipped _ _ _
                 (rowMatch_long_literal_row (S limit))).
      rewrite rowMatch_long_literal_row. unfold try_catch.
      rewrite (tryPayload_throws JSON_parse _ []
                 (JSON_parse_long_literal (S limit))).
      rewrite (catchPayload_on_throws JSON_parse limit _ []
                 (stringMatches_on_long_literal limit)).
      reflexivity.
  - vm_compute. reflexivity.
  - intros parse limit data.
    destruct (parseRsc_on_with_cases parse limit data) as [-> | ->];
      [left | now right].
    eexists. apply parseRsc_with_eq.
Qed.

(** C9.  When the payload of a row parses as an array, the row contributes
    the strings among the elements of the array that pass the rule, in
    order, and nothing else: a string inside an element that is itself an
    array or an object is not looked at.  Whenever the payload parses, the
    [try] block returns normally, so the [catch] block with its quoted-string
    scan does not run, and what the row contributes depends on the parsed
    value alone. *)
Theorem parseRsc_array_top_level :
  forall line idx payload extracted,
    rowMatch (trim line) = Some (idx, payload) ->
    (forall items,
        JSON_parse payload = Some (JArray items) ->
        parseRsc_line JSON_parse line extracted
        = (Val tt, extracted ++ filter keep_item (top_level_strings items)))
    /\ (forall v,
           JSON_parse payload = Some v ->
           tryPayload JSON_parse payload extracted
           = (Val tt, extracted ++ value_fragments v)
           /\ parseRsc_line JSON_parse line extracted
              = (Val tt, extracted ++ value_fragments v)).
Proof.
  intros line idx payload extracted Hrow. split.
  - intros items Hp.
    now rewrite (parseRsc_line_row line idx payload extracted Hrow), Hp.
  - intros v Hp. split.
    + apply (tryPayload_parsed JSON_parse payload v Hp).
    + now rewrite (parseRsc_line_row line idx payload extracted Hrow), Hp.
Qed.

Lemma parseRsc_array_top_level_witness :
  parseRsc_line JSON_parse row_nested [] = (Val tt, [top_string])
  /\ parseRsc_line JSON_parse row_object [] = (Val tt, [])
  /\ fallback_fragments JSON_parse payload_object = [nested_string].
Proof.
  assert (Hn : rowMatch (trim row_nested) = Some (js "4", payload_nested))
    by (vm_compute; reflexivity).
  assert (Ho : rowMatch (trim row_object) = Some (js "5", payload_object))
    by (vm_compute; reflexivity).
  split; [|split].
  - rewrite (proj1 (parseRsc_array_top_level row_nested (js "4")
                      payload_nested [] Hn) items_nested);
      vm_compute; reflexivity.
  - rewrite (proj2 (proj2 (parseRsc_array_top_level row_object (js "5")
                             payload_object [] Ho)
                      (JObject [(js "k", JString nested_string)])
                      ltac:(vm_compute; reflexivity)));
      vm_compute; reflexivity.
  - vm_compute. reflexivity.
Defined.

(** ** The Fetcher *)

Section FetchFacts.

Variable env : Env.

Lemma fetchContent_body_ext
    (self1 self2 : jsstring -> Headers -> option AbortSignal -> Z
                   -> M World FetchResult)
    (url : jsstring) (headers : Headers) (signal : option AbortSignal)
    (m : Z) (w : World) :
  (forall u w', self1 u headers signal (m - 1)%Z w'
                = self2 u headers signal (m - 1)%Z w') ->
  fetchContent_body env self1 url headers signal m w
  = fetchContent_body env self2 url headers signal m w.
Proof.
  intros H. unfold fetchContent_body, bind.
  destruct (emit (EvFetchContent url m) w) as [[[]|e|e] w0]; try reflexivity.
  destruct (m <? 0)%Z; [reflexivity|].
  destruct (of_sum (URL_protocol env url) w0) as [[protocol|e|e] w1];
    try reflexivity.
  destruct (issue _ w1) as [[n|e|e] w2]; try reflexivity.
  destruct (client_get env n _ url _) as [e|e|res]; try reflexivity.
  destruct (aborted signal n); [reflexivity|].
  destruct (redirect_location res) as [location|]; [|reflexivity].
  destruct (URL_resolve env location url) as [e|next]; [reflexivity|].
  apply H.
Qed.

(** Below zero the call is refused before anything else is done. *)
Lemma fetchContent_body_refused
    (self : jsstring -> Headers -> option AbortSignal -> Z
            -> M World FetchResult)
    (url : jsstring) (headers : Headers) (signal : option AbortSignal)
    (m : Z) (w : World) :
  (m < 0)%Z ->
  fetchContent_body env self url headers signal m w
  = (Thrown TOO_MANY_REDIRECTS,
     {| requests := requests w;
        trace := trace w ++ [EvFetchContent url m] |}).
Proof.
  intros H. unfold fetchContent_body, bind, emit, modify.
  apply Z.ltb_lt in H. now rewrite H.
Qed.

(** More fuel than the calls that can be made changes nothing. *)
Lemma fetchContent_from_stable (n : nat) :
  forall url headers signal m w,
    (Z.to_nat (m + 1) < n)%nat ->
    fetchContent_from env n url headers signal m w
    = fetchContent env url headers signal m w.
Proof.
  induction n as [|n IH]; intros url headers signal m w Hn; [lia|].
  unfold fetchContent. cbn [fetchContent_from].
  destruct (Z.ltb_spec m 0) as [Hneg|Hpos].
  - now rewrite !fetchContent_body_refused.
  - apply fetchContent_body_ext. intros u w'.
    replace (Z.to_nat (m + 1)) with (S (Z.to_nat (m - 1 + 1))) by lia.
    apply IH. lia.
Qed.

(** [fetchContent] satisfies the recursive equation of the source. *)
Lemma fetchContent_eq (url : jsstring) (headers : Headers)
    (signal : option AbortSignal) (m : Z) (w : World) :
  fetchContent env url headers signal m w
  = fetchContent_body env (fetchContent env) url headers signal m w.
Proof.
  unfold fetchContent at 1. cbn [fetchContent_from].
  destruct (Z.ltb_spec m 0) as [Hneg|Hpos].
  - now rewrite !fetchContent_body_refused.
  - apply fetchContent_body_ext. intros u w'.
    apply fetchContent_from_stable. lia.
Qed.

Lemma redirect_location_iff (res : IncomingMessage) (location : jsstring) :
  redirect_location res = Some location <-> redirect_to res location.
Proof.
  unfold redirect_location, redirect_to. split.
  - destruct (res_statusCode res) as [code|]; [|discriminate].
    destruct (res_location res) as [[|c l]|]; try discriminate.
    destruct (negb (code =? 0)%Z && (300 <=? code)%Z && (code <? 400)%Z)
      eqn:E; [|discriminate].
    intros [= <-]. exists code.
    apply andb_true_iff in E. destruct E as [E H4].
    apply andb_true_iff in E. destruct E as [_ H3].
    apply Z.leb_le in H3. apply Z.ltb_lt in H4.
    repeat split; try assumption; discriminate.
  - intros (code & -> & [H3 H4] & -> & Hne).
    destruct location as [|c l]; [now destruct Hne|].
    replace (code =? 0)%Z with false by (symmetry; apply Z.eqb_neq; lia).
    replace (300 <=? code)%Z with true by (symmetry; apply Z.leb_le; lia).
    replace (code <? 400)%Z with true by (symmetry; apply Z.ltb_lt; lia).
    reflexivity.
Qed.

Lemma redirect_location_none (res : IncomingMessage) :
  (forall location, ~ redirect_to res location) ->
  redirect_location res = None.
Proof.
  intros H. destruct (redirect_location res) as [location|] eqn:E;
    [|reflexivity].
  apply redirect_location_iff in E. now destruct (H location).
Qed.

(** One call whose request is answered. *)
Lemma fetchContent_answered (url : jsstring) (headers : Headers)
    (signal : option AbortSignal) (m : Z) (w : World)
    (protocol : jsstring) (res : IncomingMessage) :
  (0 <= m)%Z ->
  URL_protocol env url = inr protocol ->
  client_get env (requests w) (client_for protocol) url
             (requestHeaders env headers) = GetResponse res ->
  aborted signal (requests w) = false ->
  fetchContent env url headers signal m w
  = match redirect_location res with
    | Some location =>
        match URL_resolve env location url with
        | inl e => (Fault e, sent env w url m protocol headers)
        | inr next =>
            fetchContent env next headers signal (m - 1)
                         (sent env w url m protocol headers)
        end
    | None => (Val (resolved res), sent env w url m protocol headers)
    end.
Proof.
  intros Hm Hu Hg Ha. rewrite fetchContent_eq.
  unfold fetchContent_body, bind, emit, modify, issue, of_sum.
  replace (m <? 0)%Z with false by (symmetry; apply Z.ltb_ge; lia).
  rewrite Hu. unfold ret at 1. cbn [requests trace].
  rewrite Hg, Ha. unfold sent. rewrite <- app_assoc. cbn [app].
  destruct (redirect_location res) as [location|]; [|reflexivity].
  destruct (URL_resolve env location url); reflexivity.
Qed.



End FetchFacts.


Lemma answers_web (n : nat) (url protocol : jsstring) (res : IncomingMessage) :
  protocol_of url = inr protocol ->
  web url = GetResponse res ->
  answers web_env [] None n url res.
Proof. intros Hp Hw. exists protocol. repeat split; assumption. Qed.

Lemma redirect_to_302 (ctype location : jsstring) (chunks : list jsstring)
    (code : Z) :
  (300 <= code < 400)%Z -> location <> [] ->
  redirect_to {| res_statusCode := Some code;
                 res_location := Some location;
                 res_contentType := Some ctype;
                 res_chunks := chunks |} location.
Proof. intros Hc Hl. exists code. repeat split; try assumption; lia. Qed.

Lemma chain_a_c : redirects web_env [] None 0 (js "http://a.example/") 2
                    (js "https://c.example/").
Proof.
  eapply (@redirects_hop web_env [] None 0 (js "http://a.example/") res_a
           (js "http://b.example/") (js "http://b.example/")).
  - apply (answers_web 0 _ (js "http:")); reflexivity.
  - apply redirect_to_302; [lia | discriminate].
  - reflexivity.
  - eapply (@redirects_hop web_env [] None 1 (js "http://b.example/") res_b
             (js "https://c.example/") (js "https://c.example/")).
    + apply (answers_web 1 _ (js "http:")); reflexivity.
    + apply redirect_to_302; [lia | discriminate].
    + reflexivity.
    + apply redirects_none.
Defined.




(** C8, as amended.  When the signal is already set at the call, the
    budget is not below zero, the URL parses and the client takes the
    request, the call fails with the error of message [Request aborted]:
    the request is created, then destroyed, and no response is handled, so
    no redirect is followed. *)
Theorem fetchContent_aborted :
  forall env url headers signal maxRedirects w protocol,
    aborted signal (requests w) = true ->
    (0 <= maxRedirects)%Z ->
    URL_protocol env url = inr protocol ->
    (forall e,
        client_get env (requests w) (client_for protocol) url
                   (requestHeaders env headers) <> GetThrows e) ->
    fetchContent env url headers signal maxRedirects w
    = (Thrown (JsError (js "Request aborted")),
       {| requests := S (requests w);
          trace := trace w ++ [EvFetchContent url maxRedirects;
                               EvGet (client_for protocol) url
                                     (requestHeaders env headers);
                               EvDestroy url] |}).
Proof.
  intros env url headers signal m w protocol Ha Hm Hu Hg.
  rewrite fetchContent_eq.
  unfold fetchContent_body, bind, emit, modify, issue, of_sum.
  replace (m <? 0)%Z with false by (symmetry; apply Z.ltb_ge; lia).
  rewrite Hu. unfold ret at 1. cbn [requests trace]. rewrite Ha.
  destruct (client_get env (requests w) (client_for protocol) url
              (requestHeaders env headers)) as [e|e|res].
  - now destruct (Hg e).
  - unfold throw. cbn [requests trace]. now rewrite <- !app_assoc.
  - unfold throw. cbn [requests trace]. now rewrite <- !app_assoc.
Qed.

Lemma fetchContent_aborted_witness :
  fst (fetchContent web_env (js "http://a.example/") [] cancelled 5 start)
  = Thrown (JsError (js "Request aborted"))
  /\ requested (trace (snd (fetchContent web_env (js "http://a.example/") []
                              cancelled 5 start)))
     = [js "http://a.example/"].
Proof.
  rewrite (fetchContent_aborted web_env (js "http://a.example/") [] cancelled
             5 start (js "http:") eq_refl ltac:(lia) eq_refl
             ltac:(intros e; discriminate)).
  split; reflexivity.
Defined.

(** C8, the claim as written fails: with the signal set, a call whose
    budget is below zero fails with the error of the redirect bound, and a
    call whose URL does not parse fails with the error of the URL class;
    neither sends a request. *)
Lemma fetchContent_aborted_other_error :
  aborted cancelled 0 = true
  /\ fetchContent web_env (js "http://a.example/") [] cancelled (-1) start
     = (Thrown (JsError (js "Too many redirects")),
        {| requests := 0;
           trace := [EvFetchContent (js "http://a.example/") (-1)] |})
  /\ fetchContent web_env (js "not a url") [] cancelled 5 start
     = (Thrown (JsError (js "Invalid URL")),
        {| requests := 0; trace := [EvFetchContent (js "not a url") 5] |}).
Proof. repeat split. Qed.

(** Every event of a call is an event of the Fetcher, and the first one is
    the call itself. *)
Lemma fetchContent_from_trace (env : Env) (headers : Headers)
    (signal : option AbortSignal) (n : nat) :
  forall url m w r w',
    fetchContent_from env (S n) url headers signal m w = (r, w') ->
    exists events,
      trace w' = trace w ++ EvFetchContent url m :: events
      /\ forallb is_fetch_event events = true.
Proof.
  induction n as [|n IH]; intros url m w r w'; cbn [fetchContent_from];
    unfold fetchContent_body, bind, emit, modify, issue, of_sum;
    (destruct (m <? 0)%Z;
     [ intros [= _ <-]; exists []; now split | ]);
    (destruct (URL_protocol env url) as [e|protocol];
     [ intros [= _ <-]; exists []; now split | ]);
    unfold ret at 1; cbn [requests trace];
    (destruct (client_get env (requests w) (client_for protocol) url
                 (requestHeaders env headers)) as [e|e|res];
     [ intros [= _ <-]; cbn [trace]; rewrite <- app_assoc;
       eexists; split; reflexivity
     | destruct (aborted signal (requests w));
       intros [= _ <-]; cbn [trace]; rewrite <- !app_assoc;
       eexists; split; reflexivity
     | ]);
    (destruct (aborted signal (requests w));
     [ intros [= _ <-]; cbn [trace]; rewrite <- !app_assoc;
       eexists; split; reflexivity | ]);
    (destruct (redirect_location res) as [location|];
     [ | intros [= _ <-]; cbn [trace]; rewrite <- app_assoc;
         eexists; split; reflexivity ]);
    (destruct (URL_resolve env location url) as [e|next];
     [ intros [= _ <-]; cbn [trace]; rewrite <- app_assoc;
       eexists; split; reflexivity | ]).
  - intros [= _ <-]. cbn [trace]. rewrite <- app_assoc.
    eexists. split; reflexivity.
  - intros H. apply IH in H. destruct H as (events & E & F).
    cbn [trace] in E. rewrite <- !app_assoc in E. cbn [app] in E.
    eexists. split; [exact E|]. cbn [forallb is_fetch_event andb]. exact F.
Qed.

Lemma fetchContent_trace (env : Env) (url : jsstring) (headers : Headers)
    (signal : option AbortSignal) (m : Z) (w : World)
    (r : Res FetchResult) (w' : World) :
  fetchContent env url headers signal m w = (r, w') ->
  exists events,
    trace w' = trace w ++ EvFetchContent url m :: events
    /\ forallb is_fetch_event events = true.
Proof. apply fetchContent_from_trace. Qed.

(** ** The orchestrator *)

Section ToolFacts.

Variable env : Env.

(** A challenge sends the local path to the proxy at once. *)
Lemma localStage_challenge (url : jsstring) (signal : option AbortSignal)
    (w : World) (fetched : FetchResult) (w1 : World) :
  fetchContent env url [] signal 5 w = (Val fetched, w1) ->
  isChallenge (statusCode fetched) (data fetched) = true ->
  localStage env url signal w = (Val None, w1).
Proof.
  intros Hf Hc. unfold localStage, bind. rewrite Hf. cbv zeta.
  now rewrite Hc.
Qed.

(** What the proxy path returns, by the outcome of its fetch. *)
Lemma jinaFallback_cases (url : jsstring) (signal : option AbortSignal)
    (w : World) (r : Res FetchResult) (w' : World) :
  fetchContent env (jinaUrl url) [] signal 5 w = (r, w') ->
  jinaFallback env url signal w
  = (match r with
     | Val proxied =>
         Val (if (200 <=? statusCode proxied)%Z
                 && (statusCode proxied <? 300)%Z
              then if jinaBlocked (data proxied)
                   then error_result BLOCKED_TEXT
                   else text_result (data proxied)
              else error_result (FAILED_TEXT (statusCode proxied)))
     | Thrown e => Thrown e
     | Fault e => Fault e
     end, w').
Proof.
  intros Hf. unfold jinaFallback, bind. rewrite Hf.
  destruct r as [proxied|e|e]; try reflexivity.
  destruct ((200 <=? statusCode proxied)%Z && (statusCode proxied <? 300)%Z);
    [destruct (jinaBlocked (data proxied))|]; reflexivity.
Qed.

(** After the local path falls through, [execute] is the proxy path under
    the [catch] block. *)
Lemma execute_falls_through (url : jsstring) (signal : option AbortSignal)
    (w w1 : World) :
  localStage env url signal w = (Val None, w1) ->
  execute env url signal w
  = match jinaFallback env url signal w1 with
    | (Thrown e, w2) => (Val (error_result (ERROR_TEXT e)), w2)
    | r => r
    end.
Proof.
  intros H. unfold execute, try_catch, bind. rewrite H.
  destruct (jinaFallback env url signal w1) as [[r|e|e] w2]; reflexivity.
Qed.

(** A rejected local fetch becomes an error result. *)
Lemma execute_catches_rejection (url : jsstring)
    (signal : option AbortSignal) (w : World) (e : Exn) (w1 : World) :
  fetchContent env url [] signal 5 w = (Thrown e, w1) ->
  execute env url signal w = (Val (error_result (ERROR_TEXT e)), w1).
Proof.
  intros H. unfold execute, try_catch, bind, localStage, bind. now rewrite H.
Qed.

(** [execute] never throws: what is thrown inside the [try] block is
    caught. *)
Lemma execute_never_throws (url : jsstring) (signal : option AbortSignal)
    (w : World) (e : Exn) :
  fst (execute env url signal w) <> Thrown e.
Proof.
  unfold execute, try_catch.
  destruct (bind _ _ w) as [[r|e'|e'] w']; discriminate.
Qed.

End ToolFacts.

Lemma fetch_events_no_readability (events : list Event) :
  forallb is_fetch_event events = true -> ~ In EvReadability events.
Proof.
  intros H Hin. rewrite forallb_forall in H. specialize (H _ Hin).
  discriminate.
Qed.

(** C1, as amended.  When the local fetch returns status 503, the next
    call of the Fetcher is for the proxy URL, with a fresh budget, and the
    readability parser is not run at any point of the invocation.  When
    the proxy then answers with a status in [200,300) and a body that
    contains one of the challenge keywords in some letter case, the result
    is error-flagged and its text says that the proxy was blocked as
    well. *)
Theorem execute_blocked_503 :
  forall env url signal w fetched w1,
    fetchContent env url [] signal 5 w = (Val fetched, w1) ->
    statusCode fetched = 503%Z ->
    (exists outcome w2 local proxy,
        execute env url signal w = (outcome, w2)
        /\ trace w1 = trace w ++ local
        /\ trace w2 = trace w1 ++ EvFetchContent (jinaUrl url) 5 :: proxy
        /\ ~ In EvReadability
               (local ++ EvFetchContent (jinaUrl url) 5 :: proxy))
    /\ (forall proxied w2,
           fetchContent env (jinaUrl url) [] signal 5 w1 = (Val proxied, w2) ->
           (200 <= statusCode proxied < 300)%Z ->
           (exists kw, In kw challenge_keywords
                       /\ contains_any_case (data proxied) kw) ->
           execute env url signal w = (Val (error_result BLOCKED_TEXT), w2)
           /\ isError (error_result BLOCKED_TEXT) = Some true
           /\ says_blocked (result_text (error_result BLOCKED_TEXT)) = true).
Proof.
  intros env url signal w fetched w1 Hf Hs.
  assert (Hl : localStage env url signal w = (Val None, w1)).
  { apply (localStage_challenge env url signal w fetched w1 Hf).
    rewrite Hs. apply isChallenge_status. }
  pose proof (execute_falls_through env url signal w w1 Hl) as He.
  split.
  - destruct (fetchContent env (jinaUrl url) [] signal 5 w1) as [r w2] eqn:Hp.
    rewrite (jinaFallback_cases env url signal w1 r w2 Hp) in He.
    destruct (fetchContent_trace env url [] signal 5 w _ _ Hf)
      as (local & El & Fl).
    destruct (fetchContent_trace env (jinaUrl url) [] signal 5 w1 _ _ Hp)
      as (proxy & Ep & Fp).
    assert (Hno : ~ In EvReadability
                      ((EvFetchContent url 5 :: local)
                       ++ EvFetchContent (jinaUrl url) 5 :: proxy)).
    { apply fetch_events_no_readability. rewrite forallb_app.
      cbn [forallb is_fetch_event andb]. now rewrite Fl, Fp. }
    destruct r as [proxied|e|e]; rewrite He; eauto 10.
  - intros proxied w2 Hp [H2 H3] Hk.
    rewrite (jinaFallback_cases env url signal w1 _ w2 Hp) in He.
    rewrite He.
    replace (200 <=? statusCode proxied)%Z with true
      by (symmetry; now apply Z.leb_le).
    replace (statusCode proxied <? 300)%Z with true
      by (symmetry; now apply Z.ltb_lt).
    apply jinaBlocked_iff in Hk. rewrite Hk.
    repeat split.
Qed.

Lemma execute_blocked_503_witness :
  execute web_env (js "http://blocked.example/") None start
  = (Val (error_result BLOCKED_TEXT),
     after_proxy (js "http://blocked.example/"))
  /\ requested (trace (after_proxy (js "http://blocked.example/")))
     = [js "http://blocked.example/";
        js "https://r.jina.ai/http://blocked.example/"].
Proof.
  split; [|vm_compute; reflexivity].
  refine (proj1 (proj2 (execute_blocked_503 web_env
                          (js "http://blocked.example/") None start
                          unavailable
                          (after_local (js "http://blocked.example/"))
                          _ _)
                   moment_page (after_proxy (js "http://blocked.example/"))
                   _ _ _)).
  - vm_compute. reflexivity.
  - reflexivity.
  - vm_compute. reflexivity.
  - cbn. lia.
  - exists (js "just a moment..."). split.
    + cbn. tauto.
    + exists [], (js "Just a moment..."), []. split; reflexivity.
Defined.

(** C1, the claim as written fails: the local fetch returns status 503 and
    the body of the proxy response contains a challenge keyword, but the
    proxy status is 500; the result is error-flagged and its text names the
    status of the proxy, not a block. *)
Lemma execute_proxy_status_first :
  fst (fetchContent web_env (js "http://refused.example/") [] None 5 start)
  = Val unavailable
  /\ statusCode unavailable = 503%Z
  /\ fst (fetchContent web_env (jinaUrl (js "http://refused.example/")) []
            None 5 (after_local (js "http://refused.example/")))
     = Val captcha_page
  /\ jinaBlocked (data captcha_page) = true
  /\ fst (execute web_env (js "http://refused.example/") None start)
     = Val (error_result (FAILED_TEXT 500))
  /\ says_blocked (result_text (error_result (FAILED_TEXT 500))) = false.
Proof. repeat split; vm_compute; reflexivity. Qed.

(** C10.  On the proxy path, a response with a status in [200,300) whose
    body contains none of the challenge keywords in any letter case is
    returned as it is, in a result that is not error-flagged, whatever its
    length; the empty body gives a result whose text is empty. *)
Theorem jinaFallback_verbatim :
  forall env url signal w proxied w2,
    fetchContent env (jinaUrl url) [] signal 5 w = (Val proxied, w2) ->
    (200 <= statusCode proxied < 300)%Z ->
    ((forall kw, In kw challenge_keywords ->
                 ~ contains_any_case (data proxied) kw) ->
     jinaFallback env url signal w = (Val (text_result (data proxied)), w2)
     /\ isError (text_result (data proxied)) = None
     /\ result_text (text_result (data proxied)) = data proxied
     /\ (forall w0,
            localStage env url signal w0 = (Val None, w) ->
            execute env url signal w0
            = (Val (text_result (data proxied)), w2)))
    /\ (data proxied = [] ->
        jinaFallback env url signal w = (Val (text_result []), w2)
        /\ isError (text_result []) = None
        /\ result_text (text_result []) = []).
Proof.
  intros env url signal w proxied w2 Hp [H2 H3].
  pose proof (jinaFallback_cases env url signal w _ w2 Hp) as Hj.
  assert (E2 : (200 <=? statusCode proxied)%Z = true) by now apply Z.leb_le.
  assert (E3 : (statusCode proxied <? 300)%Z = true) by now apply Z.ltb_lt.
  cbv beta iota in Hj. rewrite E2, E3 in Hj. cbn [andb] in Hj. split.
  - intros Hk.
    assert (Hb : jinaBlocked (data proxied) = false).
    { destruct (jinaBlocked (data proxied)) eqn:E; [|reflexivity].
      apply jinaBlocked_iff in E. destruct E as (kw & Hin & Hc).
      now destruct (Hk kw Hin). }
    rewrite Hb in Hj. repeat split; [exact Hj|].
    intros w0 Hl. rewrite (execute_falls_through env url signal w0 w Hl).
    now rewrite Hj.
  - intros He. rewrite He in Hj. repeat split. exact Hj.
Qed.

Lemma jinaFallback_verbatim_witness :
  jinaFallback web_env (js "http://quiet.example/") None
    (after_local (js "http://quiet.example/"))
  = (Val (text_result []), after_proxy (js "http://quiet.example/"))
  /\ execute web_env (js "http://quiet.example/") None start
     = (Val (text_result []), after_proxy (js "http://quiet.example/")).
Proof.
  pose proof (jinaFallback_verbatim web_env (js "http://quiet.example/") None
                (after_local (js "http://quiet.example/")) empty_page
                (after_proxy (js "http://quiet.example/"))
                ltac:(vm_compute; reflexivity) ltac:(cbn; lia)) as [Hk He].
  split.
  - exact (proj1 (He eq_refl)).
  - refine (proj2 (proj2 (proj2 (Hk _))) start _).
    + intros kw Hin Hc. apply includes_toLowerCase in Hc.
      cbn in Hin. destruct Hin as [<-|[<-|[<-|[<-|[]]]]]; discriminate.
    + vm_compute. reflexivity.
Defined.

(** A redirect whose location the URL class rejects: the exception is
    raised in the response callback, where neither the promise nor the
    [try] block of [execute] can see it. *)
Lemma execute_unresolved_location (env : Env) (url : jsstring)
    (signal : option AbortSignal) (w : World) (protocol : jsstring)
    (res : IncomingMessage) (location : jsstring) (e : Exn) :
  URL_protocol env url = inr protocol ->
  client_get env (requests w) (client_for protocol) url (requestHeaders env [])
  = GetResponse res ->
  aborted signal (requests w) = false ->
  redirect_to res location ->
  URL_resolve env location url = inl e ->
  execute env url signal w = (Fault e, sent env w url 5 protocol []).
Proof.
  intros Hu Hg Ha Hr He.
  unfold execute, try_catch, bind, localStage, bind.
  rewrite (fetchContent_answered env url [] signal 5 w protocol res
             ltac:(lia) Hu Hg Ha).
  apply redirect_location_iff in Hr. now rewrite Hr, He.
Qed.

(** C7, the failing input.  The site answers the local request with a
    redirect whose [Location] header is no URL: [execute] ends in no tool
    result, and the [TypeError] of the URL class reaches the host
    uncaught, after one request. *)
Theorem execute_redirect_fault :
  execute web_env (js "http://bad.example/") None start
  = (Fault (JsError (js "Invalid URL")),
     sent web_env start (js "http://bad.example/") 5 (js "http:") [])
  /\ forall result,
       fst (execute web_env (js "http://bad.example/") None start)
       <> Val result.
Proof.
  assert (H : execute web_env (js "http://bad.example/") None start
              = (Fault (JsError (js "Invalid URL")),
                 sent web_env start (js "http://bad.example/") 5
                      (js "http:") [])).
  { apply (execute_unresolved_location web_env (js "http://bad.example/")
             None start (js "http:") res_bad (js "http://[")).
    - reflexivity.
    - reflexivity.
    - reflexivity.
    - exists 302%Z. repeat split; try lia; discriminate.
    - reflexivity. }
  split; [exact H|]. intros result. rewrite H. discriminate.
Qed.

(** ** The Readable-Document Extractor *)

(** C6, as amended.  The extractor gives a text exactly when the
    readability parser finds an article whose content is longer than 100
    units, whether it found a title or not: the text is then the heading
    made of the title, a blank line, and the Markdown conversion of the
    content.  With no article, or a content of at most 100 units, it gives
    nothing, and the caller goes on to the scripts of the document. *)
Theorem articleResult_rule :
  forall env article w,
    (forall a html markdown,
        article = Some a ->
        article_content a = Some html ->
        (100 < List.length html)%nat ->
        turndown env html = inr markdown ->
        articleResult env article w
        = (Val (Some (text_result
                        (js "# " ++ show (article_title a) ++ [10; 10]%N
                         ++ markdown))),
           {| requests := requests w; trace := trace w ++ [EvTurndown] |}))
    /\ ((forall a, article = Some a -> ~ has_long_content a) ->
        articleResult env article w = (Val None, w)
        /\ forall data url doc doc' w0,
            JSDOM env data url = inr doc ->
            Readability_parse env doc = inr (article, doc') ->
            htmlStage env data url w0
            = scanScripts (script_texts env doc')
                {| requests := requests w0;
                   trace := trace w0 ++ [EvJSDOM url; EvReadability] |}).
Proof.
  intros env article w. split.
  - intros a html markdown -> Hc Hl Ht. unfold articleResult. rewrite Hc.
    destruct html as [|c html]; [cbn in Hl; lia|].
    apply Nat.ltb_lt in Hl. rewrite Hl.
    unfold bind, emit, modify, of_sum. now rewrite Ht.
  - intros Hno.
    assert (Hnone : forall w', articleResult env article w' = (Val None, w')).
    { intros w'. unfold articleResult. destruct article as [a|]; [|reflexivity].
      destruct (article_content a) as [[|c html]|] eqn:Hc; try reflexivity.
      destruct (Nat.ltb_spec 100 (List.length (c :: html))) as [Hl|Hl];
        [|reflexivity].
      destruct (Hno a eq_refl). now exists (c :: html). }
    split; [apply Hnone|].
    intros data url doc doc' w0 Hd Hp.
    unfold htmlStage, bind at 1 2 3 4, emit, modify, of_sum.
    rewrite Hd. unfold ret at 1. cbn [requests trace]. rewrite Hp.
    unfold ret at 1. unfold bind. rewrite Hnone.
    now rewrite <- app_assoc.
Qed.

Lemma articleResult_rule_witness :
  articleResult (env_with (Some titled)) (Some titled) start
  = (Val (Some (text_result (js "# Title" ++ [10; 10]%N ++ html101))),
     {| requests := 0; trace := [EvTurndown] |})
  /\ articleResult web_env None start = (Val None, start).
Proof.
  split.
  - exact (proj1 (articleResult_rule (env_with (Some titled)) (Some titled)
                    start)
             titled html101 html101 eq_refl eq_refl
             ltac:(vm_compute; lia) eq_refl).
  - refine (proj1 (proj2 (articleResult_rule web_env None start) _)).
    intros a H. discriminate.
Defined.

(** C6, the claim as written fails: an article for which no title was
    found, with 101 units of content, gives a text, under an empty
    heading. *)
Lemma articleResult_untitled :
  ~ has_title untitled
  /\ has_long_content untitled
  /\ articleResult (env_with (Some untitled)) (Some untitled) start
     = (Val (Some (text_result (js "# " ++ [10; 10]%N ++ html101))),
        {| requests := 0; trace := [EvTurndown] |}).
Proof.
  split; [|split].
  - intros (c & t & H). discriminate.
  - exists html101. split; [reflexivity | vm_compute; lia].
  - vm_compute. reflexivity.
Qed.

(** * Further properties of the Fetcher *)

Section FetchMore.

Variable env : Env.

Lemma world_eta (w : World) :
  {| requests := requests w; trace := trace w |} = w.
Proof. now destruct w. Qed.

Lemma requested_app (a b : list Event) :
  requested (a ++ b) = requested a ++ requested b.
Proof.
  induction a as [|e a IH]; [reflexivity|].
  destruct e; cbn [app requested]; now rewrite IH.
Qed.

Lemma budgets_app (a b : list Event) :
  budgets (a ++ b) = budgets a ++ budgets b.
Proof.
  induction a as [|e a IH]; [reflexivity|].
  destruct e; cbn [app budgets]; now rewrite IH.
Qed.

(** Following [k] redirects is calling the Fetcher for the last location
    with [k] less of the budget. *)
Lemma fetchContent_chain (headers : Headers) (signal : option AbortSignal)
    (n : nat) (url : jsstring) (k : nat) (last : jsstring) :
  redirects env headers signal n url k last ->
  forall (m : Z) (w : World),
    n = requests w ->
    (Z.of_nat k <= m)%Z ->
    exists events,
      fetchContent env url headers signal m w
      = fetchContent env last headers signal (m - Z.of_nat k)
          {| requests := requests w + k; trace := trace w ++ events |}
      /\ List.length (requested events) = k
      /\ List.length (budgets events) = k.
Proof.
  induction 1 as [n url | n url res location next k last Ha Hr Hn _ IH];
    intros m w Hw Hm.
  - exists []. rewrite Nat.add_0_r, app_nil_r, world_eta, Z.sub_0_r.
    repeat split.
  - destruct Ha as (protocol & Hu & Hg & Hab). subst n.
    rewrite (fetchContent_answered env url headers signal m w protocol res
               ltac:(lia) Hu Hg Hab).
    apply redirect_location_iff in Hr. rewrite Hr, Hn.
    destruct (IH (m - 1)%Z (sent env w url m protocol headers)
                eq_refl ltac:(lia)) as (events & E & Hq & Hb).
    rewrite E. unfold sent. cbn [requests trace].
    exists ([EvFetchContent url m;
             EvGet (client_for protocol) url (requestHeaders env headers)]
            ++ events).
    split; [|split].
    + rewrite <- !app_assoc. cbn [app].
      replace (S (requests w) + k)%nat with (requests w + S k)%nat by lia.
      replace (m - 1 - Z.of_nat k)%Z with (m - Z.of_nat (S k))%Z by lia.
      reflexivity.
    + cbn [app requested List.length]. now rewrite Hq.
    + cbn [app budgets List.length]. now rewrite Hb.
Qed.

(** One call whose request fails in the transport. *)
Lemma fetchContent_errs (url : jsstring) (headers : Headers)
    (signal : option AbortSignal) (m : Z) (w : World)
    (protocol : jsstring) (e : Exn) :
  (0 <= m)%Z ->
  URL_protocol env url = inr protocol ->
  client_get env (requests w) (client_for protocol) url
             (requestHeaders env headers) = GetError e ->
  aborted signal (requests w) = false ->
  fetchContent env url headers signal m w
  = (Thrown e, sent env w url m protocol headers).
Proof.
  intros Hm Hu Hg Ha. rewrite fetchContent_eq.
  unfold fetchContent_body, bind, emit, modify, issue, of_sum.
  replace (m <? 0)%Z with false by (symmetry; apply Z.ltb_ge; lia).
  rewrite Hu. unfold ret at 1. cbn [requests trace].
  rewrite Hg, Ha. unfold sent, throw. rewrite <- app_assoc. reflexivity.
Qed.

End FetchMore.

(** X1.  Following [k] redirects within the budget is the same as calling
    the Fetcher for the last location with the budget lowered by [k], in
    the world where the [k] requests have been sent. *)
Theorem fetchContent_after_redirects :
  forall env headers signal w url k last maxRedirects,
    redirects env headers signal (requests w) url k last ->
    (Z.of_nat k <= maxRedirects)%Z ->
    exists events,
      fetchContent env url headers signal maxRedirects w
      = fetchContent env last headers signal (maxRedirects - Z.of_nat k)
          {| requests := requests w + k; trace := trace w ++ events |}
      /\ List.length (requested events) = k.
Proof.
  intros env headers signal w url k last m H Hk.
  destruct (fetchContent_chain env headers signal (requests w) url k last H
              m w eq_refl Hk) as (events & E & Hq & _).
  now exists events.
Qed.

Lemma fetchContent_after_redirects_witness :
  exists events,
    fetchContent web_env (js "http://a.example/") [] None 5 start
    = fetchContent web_env (js "https://c.example/") [] None 3
        {| requests := 2; trace := events |}
    /\ List.length (requested events) = 2%nat.
Proof.
  exact (fetchContent_after_redirects web_env [] None start
           (js "http://a.example/") 2 (js "https://c.example/") 5
           chain_a_c ltac:(simpl; lia)).
Defined.

(** X2.  A transport error at any hop of a redirect chain rejects the whole
    call with that error: after [k] redirects within the budget, the error
    of the request for the last location is what the call throws, and no
    request follows it. *)
Theorem fetchContent_error_at_hop :
  forall env headers signal w url k last maxRedirects protocol e,
    redirects env headers signal (requests w) url k last ->
    (Z.of_nat k <= maxRedirects)%Z ->
    URL_protocol env last = inr protocol ->
    client_get env (requests w + k) (client_for protocol) last
               (requestHeaders env headers) = GetError e ->
    aborted signal (requests w + k) = false ->
    exists events,
      fetchContent env url headers signal maxRedirects w
      = (Thrown e,
         {| requests := requests w + S k; trace := trace w ++ events |})
      /\ List.length (requested events) = S k.
Proof.
  intros env headers signal w url k last m protocol e H Hk Hu Hg Ha.
  destruct (fetchContent_chain env headers signal (requests w) url k last H
              m w eq_refl Hk) as (events & E & Hq & _).
  rewrite E.
  rewrite (fetchContent_errs env last headers signal (m - Z.of_nat k)
             {| requests := requests w + k; trace := trace w ++ events |}
             protocol e ltac:(lia) Hu Hg Ha).
  unfold sent. cbn [requests trace].
  exists (events
          ++ [EvFetchContent last (m - Z.of_nat k);
              EvGet (client_for protocol) last (requestHeaders env headers)]).
  split.
  - now rewrite app_assoc, Nat.add_succ_r.
  - rewrite requested_app, length_app, Hq. cbn. lia.
Qed.

(** X4.  A response that is no redirect is returned whatever its status: a
    status below 300 or from 400 on is no error, and a status in [300,400)
    with no [Location] header, or an empty one, is not followed.  The
    result holds the chunks of the body put together, the content type or
    the empty string, and the status. *)
Theorem fetchContent_not_followed :
  forall env url headers signal maxRedirects w protocol res code,
    (0 <= maxRedirects)%Z ->
    URL_protocol env url = inr protocol ->
    client_get env (requests w) (client_for protocol) url
               (requestHeaders env headers) = GetResponse res ->
    aborted signal (requests w) = false ->
    res_statusCode res = Some code ->
    ((code < 300)%Z \/ (400 <= code)%Z
     \/ res_location res = None \/ res_location res = Some []) ->
    fetchContent env url headers signal maxRedirects w
    = (Val {| data := List.concat (res_chunks res);
              contentType := match res_contentType res with
                             | Some ct => ct
                             | None => []
                             end;
              statusCode := code |},
       sent env w url maxRedirects protocol headers).
Proof.
  intros env url headers signal m w protocol res code Hm Hu Hg Ha Hc Hno.
  rewrite (fetchContent_answered env url headers signal m w protocol res
             Hm Hu Hg Ha).
  rewrite (redirect_location_none res).
  - unfold resolved. rewrite Hc.
    destruct (res_contentType res) as [[|c t]|]; reflexivity.
  - intros location (code' & Hc' & [H3 H4] & Hl & Hne).
    rewrite Hc in Hc'. injection Hc' as <-.
    destruct Hno as [H|[H|[H|H]]]; try lia; rewrite Hl in H;
      [discriminate | injection H as ->; now destruct Hne].
Qed.

Section Bounded.

Variables (env : Env) (headers : Headers).

Lemma extends_by_refl (w : World) : extends_by w w [].
Proof. split; cbn; [now rewrite app_nil_r | lia]. Qed.

Lemma extends_by_trans (w w1 w2 : World) (a b : list Event) :
  extends_by w w1 a -> extends_by w1 w2 b -> extends_by w w2 (a ++ b).
Proof.
  intros [Ta Ra] [Tb Rb]. split.
  - now rewrite Tb, Ta, app_assoc.
  - rewrite Rb, Ra, requested_app, length_app. lia.
Qed.

Lemma bounded_weaken {A : Type} (a b : nat) (m : M World A) :
  (a <= b)%nat -> bounded_run env headers a m -> bounded_run env headers b m.
Proof.
  intros Hab H w. destruct (H w) as (events & He & Hl & Hf).
  exists events. repeat split; try assumption; try apply He. lia.
Qed.

Lemma bounded_still {A : Type} (m : M World A) :
  (forall w, snd (m w) = w) -> bounded_run env headers 0 m.
Proof.
  intros H w. exists []. rewrite H.
  split; [apply extends_by_refl | split; [cbn; lia | constructor]].
Qed.

Lemma bounded_ret {A : Type} (a : A) : bounded_run env headers 0 (ret a).
Proof. now apply bounded_still. Qed.

Lemma bounded_of_sum {A : Type} (r : Exn + A) :
  bounded_run env headers 0 (of_sum r).
Proof. apply bounded_still. now destruct r. Qed.

Lemma bounded_lift {A : Type} (r : Res A) : bounded_run env headers 0 (lift r).
Proof. now apply bounded_still. Qed.

(** An event that is no request. *)
Lemma bounded_emit (ev : Event) :
  requested [ev] = [] -> bounded_run env headers 0 (emit ev).
Proof.
  intros H w. exists [ev]. cbn [emit modify snd]. split; [|split].
  - split; cbn [trace requests]; [reflexivity | rewrite H; cbn; lia].
  - rewrite H. cbn. lia.
  - constructor; [|constructor]. destruct ev; try exact I. discriminate.
Qed.

Lemma bounded_bind {A B : Type} (a b : nat) (m : M World A)
    (k : A -> M World B) :
  bounded_run env headers a m ->
  (forall x, bounded_run env headers b (k x)) ->
  bounded_run env headers (a + b) (bind m k).
Proof.
  intros Hm Hk w. destruct (Hm w) as (ev1 & He1 & Hl1 & Hf1).
  unfold bind. destruct (m w) as [[x|e|e] w1]; cbn [snd] in *.
  - destruct (Hk x w1) as (ev2 & He2 & Hl2 & Hf2).
    exists (ev1 ++ ev2). split; [|split].
    + exact (extends_by_trans w w1 _ ev1 ev2 He1 He2).
    + rewrite requested_app, length_app. lia.
    + apply Forall_app. now split.
  - exists ev1. repeat split; try apply He1; try assumption. lia.
  - exists ev1. repeat split; try apply He1; try assumption. lia.
Qed.

Lemma bounded_try_catch {A : Type} (a b : nat) (body : M World A)
    (handler : Exn -> M World A) :
  bounded_run env headers a body ->
  (forall e, bounded_run env headers b (handler e)) ->
  bounded_run env headers (a + b) (try_catch body handler).
Proof.
  intros Hm Hk w. destruct (Hm w) as (ev1 & He1 & Hl1 & Hf1).
  unfold try_catch. destruct (body w) as [[x|e|e] w1]; cbn [snd] in *.
  - exists ev1. repeat split; try apply He1; try assumption. lia.
  - destruct (Hk e w1) as (ev2 & He2 & Hl2 & Hf2).
    exists (ev1 ++ ev2). split; [|split].
    + exact (extends_by_trans w w1 _ ev1 ev2 He1 He2).
    + rewrite requested_app, length_app. lia.
    + apply Forall_app. now split.
  - exists ev1. repeat split; try apply He1; try assumption. lia.
Qed.

Lemma request_ok_get (url protocol : jsstring) :
  URL_protocol env url = inr protocol ->
  request_ok env headers
    (EvGet (client_for protocol) url (requestHeaders env headers)).
Proof. intros H. split; [reflexivity|]. now exists protocol. Qed.

(** The Fetcher sends at most one request for each budget from
    [maxRedirects] down to zero. *)
Lemma bounded_fetchContent_from (signal : option AbortSignal) (n : nat) :
  forall url m,
    bounded_run env headers (Z.to_nat (m + 1))
      (fetchContent_from env n url headers signal m).
Proof.
  induction n as [|n IH]; intros url m.
  - apply (bounded_weaken 0); [lia|]. now apply bounded_still.
  - cbn [fetchContent_from]. intros w.
    unfold fetchContent_body, bind, emit, modify, issue, of_sum.
    destruct (Z.ltb_spec m 0) as [Hneg|Hpos].
    { exists [EvFetchContent url m]. cbn [snd throw].
      repeat split; cbn; try lia. constructor; [exact I | constructor]. }
    destruct (URL_protocol env url) as [e|protocol] eqn:Hu.
    { exists [EvFetchContent url m]. cbn [snd throw].
      repeat split; cbn; try lia. constructor; [exact I | constructor]. }
    unfold ret at 1. cbn [requests trace].
    set (get := EvGet (client_for protocol) url (requestHeaders env headers)).
    assert (Hok : Forall (request_ok env headers) [EvFetchContent url m; get]).
    { constructor; [exact I|]. constructor; [|constructor].
      now apply request_ok_get. }
    assert (Hstop : forall (r : Res FetchResult),
               exists events,
                 extends_by w
                   {| requests := S (requests w);
                      trace := (trace w ++ [EvFetchContent url m]) ++ [get] |}
                   events
                 /\ (List.length (requested events) <= Z.to_nat (m + 1))%nat
                 /\ Forall (request_ok env headers) events).
    { intros _. exists [EvFetchContent url m; get].
      split; [|split; [cbn; lia | exact Hok]].
      split; cbn [trace requests]; [now rewrite <- app_assoc | cbn; lia]. }
    assert (Hdestroy :
              exists events,
                extends_by w
                  {| requests := S (requests w);
                     trace := ((trace w ++ [EvFetchContent url m]) ++ [get])
                              ++ [EvDestroy url] |}
                  events
                /\ (List.length (requested events) <= Z.to_nat (m + 1))%nat
                /\ Forall (request_ok env headers) events).
    { exists [EvFetchContent url m; get; EvDestroy url].
      split; [|split; [cbn; lia|]].
      - split; cbn [trace requests]; [now rewrite <- !app_assoc | cbn; lia].
      - apply (Forall_app _ [EvFetchContent url m; get] [EvDestroy url]).
        split; [exact Hok | constructor; [exact I | constructor]]. }
    destruct (client_get env (requests w) (client_for protocol) url
                (requestHeaders env headers)) as [e|e|res].
    + cbn [snd throw]. exact (Hstop (Thrown e)).
    + destruct (aborted signal (requests w)); cbn [snd throw requests trace].
      * exact Hdestroy.
      * exact (Hstop (Thrown e)).
    + destruct (aborted signal (requests w)); cbn [snd throw requests trace].
      { exact Hdestroy. }
      destruct (redirect_location res) as [location|];
        [|cbn [snd ret]; exact (Hstop (Thrown (JsError [])))].
      destruct (URL_resolve env location url) as [e|next];
        [cbn [snd fault]; exact (Hstop (Thrown e))|].
      destruct (IH next (m - 1)%Z
                  {| requests := S (requests w);
                     trace := (trace w ++ [EvFetchContent url m]) ++ [get] |})
        as (events & [Te Re] & Hl & Hf).
      exists ([EvFetchContent url m; get] ++ events). split; [|split].
      * split.
        -- rewrite Te. cbn [trace]. now rewrite <- !app_assoc.
        -- rewrite Re. cbn [requests]. rewrite requested_app, length_app.
           cbn. lia.
      * rewrite requested_app, length_app. unfold get.
        cbn [requested List.length].
        replace (m - 1 + 1)%Z with m in Hl by lia. lia.
      * apply Forall_app. now split.
Qed.

End Bounded.

(** X5.  Whatever the transport answers, a call of the Fetcher sends at
    most [maxRedirects + 1] requests, none when [maxRedirects] is below
    zero; every request carries the request headers built from the
    caller's, on every hop, and goes to the client of its own protocol. *)
Theorem fetchContent_request_bound :
  forall env url headers signal maxRedirects w,
    exists events,
      extends_by w (snd (fetchContent env url headers signal maxRedirects w))
                 events
      /\ (List.length (requested events) <= Z.to_nat (maxRedirects + 1))%nat
      /\ Forall (request_ok env headers) events.
Proof.
  intros env url headers signal m w.
  apply (bounded_fetchContent_from env headers signal).
Qed.

Lemma jsstring_eqb_eq (a b : jsstring) : jsstring_eqb a b = true <-> a = b.
Proof.
  unfold jsstring_eqb. destruct (list_eq_dec N.eq_dec a b); split;
    try discriminate; intuition.
Qed.

Lemma jsstring_eqb_sym (a b : jsstring) : jsstring_eqb a b = jsstring_eqb b a.
Proof.
  unfold jsstring_eqb.
  destruct (list_eq_dec N.eq_dec a b), (list_eq_dec N.eq_dec b a);
    try reflexivity; subst; now destruct n.
Qed.

Lemma header_value_set (k k' v' : jsstring) (hs : Headers) :
  header_value k (set_header k' v' hs)
  = if jsstring_eqb k k' then Some v' else header_value k hs.
Proof.
  induction hs as [|[k0 v0] hs IH]; cbn [set_header header_value].
  - reflexivity.
  - destruct (jsstring_eqb k' k0) eqn:E0; cbn [header_value].
    + apply jsstring_eqb_eq in E0. subst k0.
      now destruct (jsstring_eqb k k').
    + rewrite IH. destruct (jsstring_eqb k k0) eqn:E1; [|reflexivity].
      apply jsstring_eqb_eq in E1. subst k0.
      destruct (jsstring_eqb k k') eqn:E2; [|reflexivity].
      apply jsstring_eqb_eq in E2. subst k'.
      assert (T : jsstring_eqb k k = true) by now apply jsstring_eqb_eq.
      rewrite T in E0. discriminate.
Qed.

Lemma header_value_spread (k : jsstring) (b : Headers) :
  forall a,
    header_value k (spread a b)
    = match last_value k b with
      | Some v => Some v
      | None => header_value k a
      end.
Proof.
  unfold spread. induction b as [|[k' v'] b IH]; intros a;
    cbn [fold_left last_value fst snd]; [reflexivity|].
  rewrite IH, header_value_set.
  destruct (last_value k b); [reflexivity|].
  now destruct (jsstring_eqb k k').
Qed.

(** X6.  In the headers of a request, a header the caller supplies has
    the caller's value, the last one given for its name, and any other
    header has its default value: [User-Agent] and [Accept] are sent
    unless the caller replaces them. *)
Theorem requestHeaders_lookup :
  forall env headers k,
    header_value k (requestHeaders env headers)
    = match last_value k headers with
      | Some v => Some v
      | None => header_value k (default_headers env)
      end.
Proof. intros env headers k. apply header_value_spread. Qed.

Lemma chain_moved :
  redirects lenient_env [] None 0 (js "http://moved.example/") 1
    (js "http://gone.example/").
Proof.
  eapply (@redirects_hop lenient_env [] None 0 (js "http://moved.example/")
            res_moved (js "http://gone.example/") (js "http://gone.example/")).
  - exists (js "http:"). repeat split.
  - apply redirect_to_302; [lia | discriminate].
  - reflexivity.
  - apply redirects_none.
Defined.

Lemma fetchContent_error_at_hop_witness :
  exists events,
    fetchContent lenient_env (js "http://moved.example/") [] None 5 start
    = (Thrown ENOTFOUND, {| requests := 2; trace := events |})
    /\ List.length (requested events) = 2%nat.
Proof.
  exact (fetchContent_error_at_hop lenient_env [] None start
           (js "http://moved.example/") 1 (js "http://gone.example/") 5
           (js "http:") ENOTFOUND chain_moved ltac:(simpl; lia)
           eq_refl eq_refl eq_refl).
Defined.

Lemma fetchContent_not_followed_witness :
  fetchContent lenient_env (js "http://missing.example/") [] None 5 start
  = (Val missing_page,
     sent lenient_env start (js "http://missing.example/") 5 (js "http:") []).
Proof.
  exact (fetchContent_not_followed lenient_env (js "http://missing.example/")
           [] None 5 start (js "http:") res_missing 404
           ltac:(lia) eq_refl eq_refl eq_refl eq_refl
           ltac:(right; left; lia)).
Defined.

(** * Further properties of the orchestrator *)

Section ToolMore.

Variable env : Env.

Lemma localStage_fetched (url : jsstring) (signal : option AbortSignal)
    (w : World) (fetched : FetchResult) (w1 : World) :
  fetchContent env url [] signal 5 w = (Val fetched, w1) ->
  localStage env url signal w = afterFetch env url fetched w1.
Proof. intros H. unfold localStage, bind at 1. now rewrite H. Qed.

Lemma execute_of_local (url : jsstring) (signal : option AbortSignal)
    (w : World) (result : ToolResult) (w1 : World) :
  localStage env url signal w = (Val (Some result), w1) ->
  execute env url signal w = (Val result, w1).
Proof. intros H. unfold execute, try_catch, bind. now rewrite H. Qed.

Lemma execute_local_thrown (url : jsstring) (signal : option AbortSignal)
    (w : World) (e : Exn) (w1 : World) :
  localStage env url signal w = (Thrown e, w1) ->
  execute env url signal w = (Val (error_result (ERROR_TEXT e)), w1).
Proof. intros H. unfold execute, try_catch, bind. now rewrite H. Qed.

(** The local path falls through when the response is a challenge or its
    status is outside [200,300). *)
Lemma afterFetch_skips (url : jsstring) (fetched : FetchResult) (w : World) :
  isChallenge (statusCode fetched) (data fetched) = true
  \/ (statusCode fetched < 200)%Z \/ (300 <= statusCode fetched)%Z ->
  afterFetch env url fetched w = (Val None, w).
Proof.
  intros H. unfold afterFetch.
  destruct (isChallenge _ _); [reflexivity|].
  destruct H as [H|H]; [discriminate|].
  destruct (Z.leb_spec 200 (statusCode fetched)),
    (Z.ltb_spec (statusCode fetched) 300); try reflexivity; lia.
Qed.

End ToolMore.

(** X7.  A local response with a status in [200,300) that is no challenge
    and whose content type contains [application/json], [text/plain] or
    [text/markdown] is returned as it is: no extractor runs and the proxy
    is not asked. *)
Theorem execute_passthrough :
  forall env url signal w fetched w1,
    fetchContent env url [] signal 5 w = (Val fetched, w1) ->
    isChallenge (statusCode fetched) (data fetched) = false ->
    (200 <= statusCode fetched < 300)%Z ->
    passthrough_type (contentType fetched) = true ->
    execute env url signal w = (Val (text_result (data fetched)), w1).
Proof.
  intros env url signal w fetched w1 Hf Hc [H2 H3] Hp.
  apply execute_of_local.
  rewrite (localStage_fetched env url signal w fetched w1 Hf).
  unfold afterFetch. rewrite Hc.
  replace (200 <=? statusCode fetched)%Z with true
    by (symmetry; now apply Z.leb_le).
  replace (statusCode fetched <? 300)%Z with true
    by (symmetry; now apply Z.ltb_lt).
  unfold passthrough_type in Hp. cbn [andb]. now rewrite Hp.
Qed.

Lemma execute_passthrough_witness :
  execute lenient_env (js "http://plain.example/") None start
  = (Val (text_result (js "<b>as it is</b>")),
     local_world lenient_env (js "http://plain.example/"))
  /\ requests (local_world lenient_env (js "http://plain.example/")) = 1%nat.
Proof.
  split; [|reflexivity].
  exact (execute_passthrough lenient_env (js "http://plain.example/") None
           start plain_page
           (local_world lenient_env (js "http://plain.example/"))
           ltac:(vm_compute; reflexivity) ltac:(vm_compute; reflexivity)
           ltac:(cbn; lia) ltac:(vm_compute; reflexivity)).
Defined.

(** X8.  A fetch that is rejected, the local one or the one for the proxy,
    ends the invocation in an error-flagged result whose text carries the
    message of the error; after a rejected local fetch the proxy is not
    tried. *)
Theorem execute_rejection_reported :
  forall env url signal w e w1,
    (fetchContent env url [] signal 5 w = (Thrown e, w1) ->
     execute env url signal w = (Val (error_result (ERROR_TEXT e)), w1))
    /\ (forall w0,
           localStage env url signal w0 = (Val None, w) ->
           fetchContent env (jinaUrl url) [] signal 5 w = (Thrown e, w1) ->
           execute env url signal w0
           = (Val (error_result (ERROR_TEXT e)), w1))
    /\ includes (ERROR_TEXT e) (message_of e) = true.
Proof.
  intros env url signal w e w1. split; [|split].
  - apply execute_catches_rejection.
  - intros w0 Hl Hp.
    rewrite (execute_falls_through env url signal w0 w Hl).
    now rewrite (jinaFallback_cases env url signal w _ w1 Hp).
  - unfold ERROR_TEXT. apply includes_app.
Qed.

Lemma execute_rejection_reported_witness :
  execute lenient_env (js "http://gone.example/") None start
  = (Val (error_result (ERROR_TEXT ENOTFOUND)),
     local_world lenient_env (js "http://gone.example/"))
  /\ requests (local_world lenient_env (js "http://gone.example/")) = 1%nat.
Proof.
  split; [|reflexivity].
  exact (proj1 (execute_rejection_reported lenient_env
                  (js "http://gone.example/") None start ENOTFOUND
                  (local_world lenient_env (js "http://gone.example/")))
           ltac:(vm_compute; reflexivity)).
Defined.

(** X9.  A local response that is a challenge, by its status or by a
    keyword in its body, or whose status is outside [200,300), goes to the
    proxy at once: what follows the local fetch in the trace is the call
    of the Fetcher for the proxy URL with a budget of 5, and events of that
    call only. *)
Theorem execute_skips_extractors :
  forall env url signal w fetched w1,
    fetchContent env url [] signal 5 w = (Val fetched, w1) ->
    isChallenge (statusCode fetched) (data fetched) = true
    \/ (statusCode fetched < 200)%Z \/ (300 <= statusCode fetched)%Z ->
    exists outcome w2 proxy,
      execute env url signal w = (outcome, w2)
      /\ trace w2 = trace w1 ++ EvFetchContent (jinaUrl url) 5 :: proxy
      /\ forallb is_fetch_event proxy = true.
Proof.
  intros env url signal w fetched w1 Hf Hs.
  assert (Hl : localStage env url signal w = (Val None, w1)).
  { rewrite (localStage_fetched env url signal w fetched w1 Hf).
    now apply afterFetch_skips. }
  rewrite (execute_falls_through env url signal w w1 Hl).
  destruct (fetchContent env (jinaUrl url) [] signal 5 w1) as [r w2] eqn:Hp.
  rewrite (jinaFallback_cases env url signal w1 r w2 Hp).
  destruct (fetchContent_trace env (jinaUrl url) [] signal 5 w1 _ _ Hp)
    as (proxy & Ep & Fp).
  destruct r as [proxied|e|e]; eauto 10.
Qed.

Lemma execute_skips_extractors_witness :
  exists outcome w2 proxy,
    execute lenient_env (js "http://missing.example/") None start
    = (outcome, w2)
    /\ trace w2
       = trace (local_world lenient_env (js "http://missing.example/"))
         ++ EvFetchContent (jinaUrl (js "http://missing.example/")) 5 :: proxy
    /\ forallb is_fetch_event proxy = true.
Proof.
  exact (execute_skips_extractors lenient_env (js "http://missing.example/")
           None start missing_page
           (local_world lenient_env (js "http://missing.example/"))
           ltac:(vm_compute; reflexivity)
           ltac:(right; right; cbn; lia)).
Defined.

(** X10.  When the proxy answers with a status outside [200,300), the
    result is error-flagged whatever the body is, and its text holds the
    status of the proxy in decimal. *)
Theorem execute_proxy_status_error :
  forall env url signal w0 w proxied w2,
    localStage env url signal w0 = (Val None, w) ->
    fetchContent env (jinaUrl url) [] signal 5 w = (Val proxied, w2) ->
    (statusCode proxied < 200)%Z \/ (300 <= statusCode proxied)%Z ->
    execute env url signal w0
    = (Val (error_result (FAILED_TEXT (statusCode proxied))), w2)
    /\ includes (FAILED_TEXT (statusCode proxied))
                (string_of_Z (statusCode proxied)) = true.
Proof.
  intros env url signal w0 w proxied w2 Hl Hp Hs. split.
  - rewrite (execute_falls_through env url signal w0 w Hl).
    rewrite (jinaFallback_cases env url signal w _ w2 Hp). cbv beta iota.
    destruct (Z.leb_spec 200 (statusCode proxied)),
      (Z.ltb_spec (statusCode proxied) 300); try reflexivity; lia.
  - unfold FAILED_TEXT. apply includes_app.
Qed.

Lemma execute_proxy_status_error_witness :
  execute lenient_env (js "http://missing.example/") None start
  = (Val (error_result (FAILED_TEXT 502)),
     snd (fetchContent lenient_env (jinaUrl (js "http://missing.example/"))
            [] None 5
            (local_world lenient_env (js "http://missing.example/")))).
Proof.
  exact (proj1 (execute_proxy_status_error lenient_env
                  (js "http://missing.example/") None start
                  (local_world lenient_env (js "http://missing.example/"))
                  gateway_page _
                  ltac:(vm_compute; reflexivity)
                  ltac:(vm_compute; reflexivity)
                  ltac:(right; cbn; lia))).
Defined.

Section Shapes.

Variable env : Env.

Lemma bind_val {S A B : Type} (m : M S A) (k : A -> M S B)
    (s : S) (b : B) (s' : S) :
  bind m k s = (Val b, s') ->
  exists a s1, m s = (Val a, s1) /\ k a s1 = (Val b, s').
Proof.
  unfold bind. destruct (m s) as [[a|x|x] s1]; intros H; try discriminate.
  now exists a, s1.
Qed.

Lemma returns_text_ret_none : returns_text (ret None).
Proof. intros w r w' H. discriminate. Qed.

Lemma returns_text_ret (t : jsstring) :
  returns_text (ret (Some (text_result t))).
Proof. intros w r w' [= <- _]. now exists t. Qed.

Lemma returns_text_bind {A : Type} (m : M World A)
    (k : A -> M World (option ToolResult)) :
  (forall a, returns_text (k a)) -> returns_text (bind m k).
Proof.
  intros Hk w r w' H. apply bind_val in H.
  destruct H as (a & w1 & _ & H). exact (Hk a w1 r w' H).
Qed.

(** A stage whose result is returned, and another stage otherwise. *)
Lemma returns_text_or_else (m k : M World (option ToolResult)) :
  returns_text m -> returns_text k ->
  returns_text (found <- m ;;
                match found with
                | Some result => ret (Some result)
                | None => k
                end).
Proof.
  intros Hm Hk w r w' H. apply bind_val in H.
  destruct H as ([r0|] & w1 & H1 & H2).
  - injection H2 as <- _. exact (Hm w r0 w1 H1).
  - exact (Hk w1 r w' H2).
Qed.

Lemma returns_text_scanScripts (scripts : list (option jsstring)) :
  returns_text (scanScripts scripts).
Proof.
  induction scripts as [|script rest IH]; cbn [scanScripts];
    [apply returns_text_ret_none|].
  destruct script as [[|c t]|]; try exact IH.
  destruct (includes (c :: t) (js "self.__next_f.push")); [|exact IH].
  apply returns_text_bind. intros rscText.
  destruct (50 <? List.length rscText)%nat;
    [apply returns_text_ret | exact IH].
Qed.

Lemma returns_text_articleResult (article : option Article) :
  returns_text (articleResult env article).
Proof.
  unfold articleResult. destruct article as [a|];
    [|apply returns_text_ret_none].
  destruct (article_content a) as [[|c html]|];
    try apply returns_text_ret_none.
  destruct (100 <? List.length (c :: html))%nat;
    [|apply returns_text_ret_none].
  apply returns_text_bind. intros _. apply returns_text_bind.
  intros markdown. apply returns_text_ret.
Qed.

Lemma returns_text_htmlStage (data url : jsstring) :
  returns_text (htmlStage env data url).
Proof.
  unfold htmlStage.
  apply returns_text_bind. intros _.
  apply returns_text_bind. intros doc.
  apply returns_text_bind. intros _.
  apply returns_text_bind. intros [article doc'].
  apply returns_text_or_else.
  - apply returns_text_articleResult.
  - apply returns_text_scanScripts.
Qed.

Lemma returns_text_afterFetch (url : jsstring) (fetched : FetchResult) :
  returns_text (afterFetch env url fetched).
Proof.
  unfold afterFetch.
  destruct (isChallenge _ _); [apply returns_text_ret_none|].
  destruct (_ && _); [|apply returns_text_ret_none].
  destruct (_ || _); [apply returns_text_ret|].
  apply returns_text_or_else.
  - destruct (includes _ (js "text/x-component"));
      [|apply returns_text_ret_none].
    apply returns_text_bind. intros rscText.
    destruct (50 <? List.length rscText)%nat;
      [apply returns_text_ret | apply returns_text_ret_none].
  - destruct (includes _ (js "text/html"));
      [apply returns_text_htmlStage | apply returns_text_ret_none].
Qed.

Lemma returns_text_localStage (url : jsstring) (signal : option AbortSignal) :
  returns_text (localStage env url signal).
Proof.
  unfold localStage. apply returns_text_bind. intros fetched.
  apply (returns_text_afterFetch url fetched).
Qed.

End Shapes.

Lemma includes_head (p b : jsstring) : includes (p ++ b) p = true.
Proof. apply includes_startsWith, startsWith_app. Qed.

Lemma includes_skip (a b p : jsstring) :
  includes b p = true -> includes (a ++ b) p = true.
Proof.
  intros H. apply includes_iff in H. destruct H as (x & y & ->).
  apply includes_iff. exists (a ++ x), y. now rewrite <- app_assoc.
Qed.

Lemma error_texts_name_the_tool :
  includes BLOCKED_TEXT (js "agent-browser") = true
  /\ (forall status, includes (FAILED_TEXT status) (js "agent-browser") = true)
  /\ (forall e, includes (ERROR_TEXT e) (js "agent-browser") = true).
Proof.
  split; [|split]; intros;
    unfold BLOCKED_TEXT, FAILED_TEXT, ERROR_TEXT;
    repeat first [ apply includes_head | apply includes_skip ].
Qed.

(** X11.  A result of [execute] has one content item, of type [text]; it
    is either not error-flagged, or flagged with [isError] set to true and
    a text that names the [agent-browser] tool. *)
Theorem execute_result_shape :
  forall env url signal w result w',
    execute env url signal w = (Val result, w') ->
    (exists t, result = text_result t)
    \/ (exists t, result = error_result t
                  /\ includes t (js "agent-browser") = true).
Proof.
  intros env url signal w result w' H.
  destruct error_texts_name_the_tool as (Hb & Hf & He).
  unfold execute, try_catch in H.
  destruct (bind (localStage env url signal) _ w) as [[r|e|e] w1] eqn:E;
    try discriminate.
  - injection H as -> ->. apply bind_val in E.
    destruct E as ([r0|] & w2 & H1 & H2).
    + injection H2 as <- _. left.
      exact (returns_text_localStage env url signal w r0 w2 H1).
    + unfold jinaFallback in H2. apply bind_val in H2.
      destruct H2 as (proxied & w3 & _ & H2).
      destruct (_ && _); [destruct (jinaBlocked _)|];
        injection H2 as <- _; eauto.
  - injection H as <- _. right. eauto.
Qed.

Lemma execute_result_shape_witness :
  (exists t, error_result (FAILED_TEXT 502) = text_result t)
  \/ (exists t, error_result (FAILED_TEXT 502) = error_result t
                /\ includes t (js "agent-browser") = true).
Proof.
  exact (execute_result_shape lenient_env (js "http://missing.example/")
           None start (error_result (FAILED_TEXT 502)) _
           ltac:(vm_compute; reflexivity)).
Defined.

(** X13.  Whatever the transport, the DOM library and the parsers do, one
    invocation of [execute] sends at most 12 requests, at most 6 for the
    page and at most 6 for the proxy, and each of them carries the two
    default headers only. *)
Theorem execute_request_bound :
  forall env url signal w,
    (exists events,
        extends_by w (snd (execute env url signal w)) events
        /\ (List.length (requested events) <= 12)%nat
        /\ Forall (request_ok env []) events)
    /\ requestHeaders env [] = default_headers env.
Proof.
  intros env url signal w. split; [|reflexivity].
  revert w. change (bounded_run env [] (12 + 0) (execute env url signal)).
  assert (Hparse : forall payload,
             bounded_run env [] 0 (call_parseRsc payload)).
  { intros payload. apply (bounded_bind env [] 0 0).
    - now apply bounded_emit.
    - intros _. apply bounded_lift. }
  assert (Hscan : forall scripts, bounded_run env [] 0 (scanScripts scripts)).
  { induction scripts as [|script rest IH]; cbn [scanScripts];
      [apply bounded_ret|].
    destruct script as [[|c t]|]; try exact IH.
    destruct (includes (c :: t) (js "self.__next_f.push")); [|exact IH].
    apply (bounded_bind env [] 0 0); [apply Hparse|]. intros rscText.
    destruct (50 <? List.length rscText)%nat; [apply bounded_ret | exact IH]. }
  assert (Harticle : forall article,
             bounded_run env [] 0 (articleResult env article)).
  { intros article. unfold articleResult.
    destruct article as [a|]; [|apply bounded_ret].
    destruct (article_content a) as [[|c html]|]; try apply bounded_ret.
    destruct (100 <? List.length (c :: html))%nat; [|apply bounded_ret].
    apply (bounded_bind env [] 0 0); [now apply bounded_emit|]. intros _.
    apply (bounded_bind env [] 0 0); [apply bounded_of_sum|]. intros markdown.
    apply bounded_ret. }
  assert (Hhtml : forall data, bounded_run env [] 0 (htmlStage env data url)).
  { intros data. unfold htmlStage.
    apply (bounded_bind env [] 0 0); [now apply bounded_emit|]. intros _.
    apply (bounded_bind env [] 0 0); [apply bounded_of_sum|]. intros doc.
    apply (bounded_bind env [] 0 0); [now apply bounded_emit|]. intros _.
    apply (bounded_bind env [] 0 0); [apply bounded_of_sum|].
    intros [article doc'].
    apply (bounded_bind env [] 0 0); [apply Harticle|].
    intros [result|]; [apply bounded_ret | apply Hscan]. }
  assert (Hafter : forall fetched,
             bounded_run env [] 0 (afterFetch env url fetched)).
  { intros fetched. unfold afterFetch.
    destruct (isChallenge _ _); [apply bounded_ret|].
    destruct (_ && _); [|apply bounded_ret].
    destruct (_ || _); [apply bounded_ret|].
    apply (bounded_bind env [] 0 0).
    - destruct (includes _ (js "text/x-component")); [|apply bounded_ret].
      apply (bounded_bind env [] 0 0); [apply Hparse|]. intros rscText.
      destruct (50 <? List.length rscText)%nat; apply bounded_ret.
    - intros [result|]; [apply bounded_ret|].
      destruct (includes _ (js "text/html"));
        [apply Hhtml | apply bounded_ret]. }
  apply bounded_try_catch; [|intros e; apply bounded_ret].
  apply (bounded_bind env [] 6 6).
  - unfold localStage. apply (bounded_bind env [] 6 0).
    + apply (bounded_fetchContent_from env [] signal _ url 5).
    + exact Hafter.
  - intros [result|]; [apply (bounded_weaken env [] 0); [lia|];
                        apply bounded_ret|].
    unfold jinaFallback. apply (bounded_bind env [] 6 0).
    + apply (bounded_fetchContent_from env [] signal _ (jinaUrl url) 5).
    + intros proxied.
      destruct (_ && _); [destruct (jinaBlocked _)|]; apply bounded_ret.
Qed.

Section LocalPaths.

Variable env : Env.

(** The local path for a response that is no challenge, has a status in
    [200,300) and a content type that is not returned as it is. *)
Lemma afterFetch_extracting (url : jsstring) (fetched : FetchResult)
    (w : World) :
  isChallenge (statusCode fetched) (data fetched) = false ->
  (200 <= statusCode fetched < 300)%Z ->
  passthrough_type (contentType fetched) = false ->
  afterFetch env url fetched w
  = (early <-
       (if includes (contentType fetched) (js "text/x-component") then
          rscText <- call_parseRsc (data fetched) ;;
          if (50 <? List.length rscText)%nat
          then ret (Some (text_result rscText))
          else ret None
        else ret None) ;;
     match early with
     | Some result => ret (Some result)
     | None =>
         if includes (contentType fetched) (js "text/html")
         then htmlStage env (data fetched) url
         else ret None
     end) w.
Proof.
  intros Hc [H2 H3] Hp. unfold afterFetch. rewrite Hc.
  replace (200 <=? statusCode fetched)%Z with true
    by (symmetry; now apply Z.leb_le).
  replace (statusCode fetched <? 300)%Z with true
    by (symmetry; now apply Z.ltb_lt).
  unfold passthrough_type in Hp. cbn [andb]. now rewrite Hp.
Qed.

Lemma call_parseRsc_run (payload text : jsstring) (w : World) :
  parseRsc payload = Val text ->
  call_parseRsc payload w = (Val text, after w [EvParseRsc]).
Proof.
  intros H. unfold call_parseRsc, bind, emit, modify, lift. now rewrite H.
Qed.

Lemma articleResult_found (a : Article) (html markdown : jsstring)
    (w : World) :
  article_content a = Some html ->
  (100 < List.length html)%nat ->
  turndown env html = inr markdown ->
  articleResult env (Some a) w
  = (Val (Some (text_result
                  (js "# " ++ show (article_title a) ++ [10; 10]%N
                   ++ markdown))),
     after w [EvTurndown]).
Proof.
  intros Hc Hl Ht. unfold articleResult. rewrite Hc.
  destruct html as [|c html]; [cbn in Hl; lia|].
  apply Nat.ltb_lt in Hl. rewrite Hl.
  unfold bind, emit, modify, of_sum. now rewrite Ht.
Qed.

End LocalPaths.

(** X14.  For a local response with a status in [200,300) that is no
    challenge and whose content type contains [text/x-component] and none
    of the types returned as they are: when [parseRsc] gives more than 50
    units, they are the result and nothing else runs; when it gives 50 or
    fewer and the content type does not contain [text/html], the local
    path falls through to the proxy. *)
Theorem execute_component_payload :
  forall env url signal w fetched w1 rscText,
    fetchContent env url [] signal 5 w = (Val fetched, w1) ->
    isChallenge (statusCode fetched) (data fetched) = false ->
    (200 <= statusCode fetched < 300)%Z ->
    passthrough_type (contentType fetched) = false ->
    includes (contentType fetched) (js "text/x-component") = true ->
    parseRsc (data fetched) = Val rscText ->
    ((50 < List.length rscText)%nat ->
     execute env url signal w
     = (Val (text_result rscText), after w1 [EvParseRsc]))
    /\ ((List.length rscText <= 50)%nat ->
        includes (contentType fetched) (js "text/html") = false ->
        localStage env url signal w = (Val None, after w1 [EvParseRsc])).
Proof.
  intros env url signal w fetched w1 rscText Hf Hc Hs Hp Hx Hr.
  pose proof (localStage_fetched env url signal w fetched w1 Hf) as Hl.
  rewrite (afterFetch_extracting env url fetched w1 Hc Hs Hp) in Hl.
  rewrite Hx in Hl. unfold bind at 1 2 in Hl.
  rewrite (call_parseRsc_run (data fetched) rscText w1 Hr) in Hl.
  split.
  - intros Hlen. apply execute_of_local. rewrite Hl.
    apply Nat.ltb_lt in Hlen. now rewrite Hlen.
  - intros Hlen Hh. rewrite Hl.
    replace (50 <? List.length rscText)%nat with false
      by (symmetry; apply Nat.ltb_ge; lia).
    unfold ret at 1. now rewrite Hh.
Qed.

Lemma execute_component_payload_witness :
  execute lenient_env (js "http://rsc.example/") None start
  = (Val (text_result (long_sentence ++ [10; 10]%N ++ top_string)),
     after (local_world lenient_env (js "http://rsc.example/")) [EvParseRsc]).
Proof.
  exact (proj1 (execute_component_payload lenient_env
                  (js "http://rsc.example/") None start rsc_page
                  (local_world lenient_env (js "http://rsc.example/"))
                  (long_sentence ++ [10; 10]%N ++ top_string)
                  ltac:(vm_compute; reflexivity)
                  ltac:(vm_compute; reflexivity)
                  ltac:(cbn; lia)
                  ltac:(vm_compute; reflexivity)
                  ltac:(vm_compute; reflexivity)
                  ltac:(vm_compute; reflexivity))
           ltac:(vm_compute; lia)).
Defined.

(** X15.  From the response to the result on the article path: for an
    HTML response with a status in [200,300) that is no challenge, when
    the readability parser finds an article with more than 100 units of
    content, the result is the heading with the title, a blank line and
    the Markdown of the content; the DOM is built, the parser and the
    converter run once each, the scripts are not scanned and the proxy is
    not asked. *)
Theorem execute_readable_article :
  forall env url signal w fetched w1 doc doc' a html markdown,
    fetchContent env url [] signal 5 w = (Val fetched, w1) ->
    isChallenge (statusCode fetched) (data fetched) = false ->
    (200 <= statusCode fetched < 300)%Z ->
    passthrough_type (contentType fetched) = false ->
    includes (contentType fetched) (js "text/x-component") = false ->
    includes (contentType fetched) (js "text/html") = true ->
    JSDOM env (data fetched) url = inr doc ->
    Readability_parse env doc = inr (Some a, doc') ->
    article_content a = Some html ->
    (100 < List.length html)%nat ->
    turndown env html = inr markdown ->
    execute env url signal w
    = (Val (text_result
              (js "# " ++ show (article_title a) ++ [10; 10]%N ++ markdown)),
       after w1 [EvJSDOM url; EvReadability; EvTurndown]).
Proof.
  intros env url signal w fetched w1 doc doc' a html markdown
         Hf Hc Hs Hp Hx Hh Hd Hr Ha Hl Ht.
  apply execute_of_local.
  rewrite (localStage_fetched env url signal w fetched w1 Hf).
  rewrite (afterFetch_extracting env url fetched w1 Hc Hs Hp).
  rewrite Hx, Hh. unfold bind at 1. unfold ret at 1.
  unfold htmlStage, bind at 1 2 3 4, emit, modify, of_sum.
  rewrite Hd. unfold ret at 1. cbn [requests trace]. rewrite Hr.
  unfold ret at 1. unfold bind at 1.
  rewrite (articleResult_found env a html markdown _ Ha Hl Ht).
  unfold after. cbn [requests trace ret]. now rewrite <- !app_assoc.
Qed.

Lemma execute_readable_article_witness :
  execute article_env (js "http://article.example/") None start
  = (Val (text_result (js "# Title" ++ [10; 10]%N ++ html101)),
     after (local_world article_env (js "http://article.example/"))
           [EvJSDOM (js "http://article.example/"); EvReadability;
            EvTurndown]).
Proof.
  exact (execute_readable_article article_env (js "http://article.example/")
           None start html_page
           (local_world article_env (js "http://article.example/"))
           (js "<html></html>") (js "<html></html>") titled html101 html101
           ltac:(vm_compute; reflexivity)
           ltac:(vm_compute; reflexivity)
           ltac:(cbn; lia)
           ltac:(vm_compute; reflexivity)
           ltac:(vm_compute; reflexivity)
           ltac:(vm_compute; reflexivity)
           eq_refl eq_refl eq_refl
           ltac:(vm_compute; lia) eq_refl).
Defined.

(** X16.  An exception of the DOM library or of the readability parser on
    the HTML path is not a reason to ask the proxy: the invocation ends in
    an error-flagged result with the message of the exception, and no
    request follows the local fetch. *)
Theorem execute_extractor_exception :
  forall env url signal w fetched w1 e,
    fetchContent env url [] signal 5 w = (Val fetched, w1) ->
    isChallenge (statusCode fetched) (data fetched) = false ->
    (200 <= statusCode fetched < 300)%Z ->
    passthrough_type (contentType fetched) = false ->
    includes (contentType fetched) (js "text/x-component") = false ->
    includes (contentType fetched) (js "text/html") = true ->
    (JSDOM env (data fetched) url = inl e ->
     execute env url signal w
     = (Val (error_result (ERROR_TEXT e)), after w1 [EvJSDOM url]))
    /\ (forall doc,
           JSDOM env (data fetched) url = inr doc ->
           Readability_parse env doc = inl e ->
           execute env url signal w
           = (Val (error_result (ERROR_TEXT e)),
              after w1 [EvJSDOM url; EvReadability])).
Proof.
  intros env url signal w fetched w1 e Hf Hc Hs Hp Hx Hh.
  pose proof (localStage_fetched env url signal w fetched w1 Hf) as Hl.
  rewrite (afterFetch_extracting env url fetched w1 Hc Hs Hp) in Hl.
  rewrite Hx, Hh in Hl. unfold bind at 1 in Hl. unfold ret at 1 in Hl.
  unfold htmlStage, bind at 1 2 3 4, emit, modify, of_sum in Hl.
  split.
  - intros Hd. rewrite Hd in Hl. apply execute_local_thrown. exact Hl.
  - intros doc Hd Hr. rewrite Hd in Hl. unfold ret at 1 in Hl.
    cbn [requests trace] in Hl. rewrite Hr in Hl.
    apply execute_local_thrown. rewrite Hl. unfold throw, after.
    now rewrite <- !app_assoc.
Qed.

Lemma execute_extractor_exception_witness :
  execute broken_env (js "http://article.example/") None start
  = (Val (error_result (ERROR_TEXT DOM_FAILURE)),
     after (local_world broken_env (js "http://article.example/"))
           [EvJSDOM (js "http://article.example/")]).
Proof.
  exact (proj1 (execute_extractor_exception broken_env
                  (js "http://article.example/") None start html_page
                  (local_world broken_env (js "http://article.example/"))
                  DOM_FAILURE
                  ltac:(vm_compute; reflexivity)
                  ltac:(vm_compute; reflexivity)
                  ltac:(cbn; lia)
                  ltac:(vm_compute; reflexivity)
                  ltac:(vm_compute; reflexivity)
                  ltac:(vm_compute; reflexivity))
           eq_refl).
Defined.

(** X17.  The scan of the scripts passes over the scripts without the
    marker, without parsing them, and returns the payload text of the
    first script that has the marker when it is longer than 50 units; when
    no script has the marker it returns nothing and leaves no trace. *)
Theorem scanScripts_first_match :
  forall skipped w,
    Forall lacks_marker skipped ->
    scanScripts skipped w = (Val None, w)
    /\ (forall script rest rscText,
           includes script NEXT_MARKER = true ->
           parseRsc script = Val rscText ->
           (50 < List.length rscText)%nat ->
           scanScripts (skipped ++ Some script :: rest) w
           = (Val (Some (text_result rscText)), after w [EvParseRsc])).
Proof.
  intros skipped w Hs. induction Hs as [|script skipped Hm _ IH].
  - split; [reflexivity|]. intros script rest rscText Hi Hr Hl.
    cbn [app scanScripts]. destruct script as [|c t]; [discriminate|].
    unfold NEXT_MARKER in Hi. rewrite Hi. unfold bind.
    rewrite (call_parseRsc_run (c :: t) rscText w Hr).
    apply Nat.ltb_lt in Hl. now rewrite Hl.
  - assert (Hskip : forall rest,
               scanScripts (script :: rest) w = scanScripts rest w).
    { intros rest. cbn [scanScripts]. destruct script as [[|c t]|];
        try reflexivity.
      cbn [lacks_marker] in Hm. unfold NEXT_MARKER in Hm. now rewrite Hm. }
    split.
    + rewrite Hskip. apply IH.
    + intros s rest rscText Hi Hr Hl. cbn [app]. rewrite Hskip.
      now apply IH.
Qed.

Lemma scanScripts_first_match_witness :
  scanScripts [None; Some (js "console.log(1)")] start = (Val None, start)
  /\ scanScripts
       [None; Some (js "console.log(1)");
        Some (js "self.__next_f.push" ++ [10%N] ++ rsc_body); Some rsc_body]
       start
     = (Val (Some (text_result (long_sentence ++ [10; 10]%N ++ top_string))),
        after start [EvParseRsc]).
Proof.
  assert (Hs : Forall lacks_marker [None; Some (js "console.log(1)")]).
  { repeat constructor. }
  destruct (scanScripts_first_match [None; Some (js "console.log(1)")] start
              Hs) as [Hnone Hfirst].
  split; [exact Hnone|].
  exact (Hfirst (js "self.__next_f.push" ++ [10%N] ++ rsc_body)
           [Some rsc_body] (long_sentence ++ [10; 10]%N ++ top_string)
           ltac:(vm_compute; reflexivity) ltac:(vm_compute; reflexivity)
           ltac:(vm_compute; lia)).
Defined.

(** * Further properties of the Structured-Payload Extractor *)

Lemma keep_item_keep (s : jsstring) : keep_item s = true -> keep s = true.
Proof. unfold keep_item. intros H. now apply andb_true_iff in H. Qed.

Lemma value_fragments_kept (v : JSON) : Forall keep_rule (value_fragments v).
Proof.
  destruct v; cbn [value_fragments]; try constructor.
  - destruct (keep s) eqn:K; constructor; [now apply keep_iff | constructor].
  - apply Forall_forall. intros x Hx. apply filter_In in Hx.
    apply keep_iff, keep_item_keep, Hx.
Qed.

Lemma fallback_fragments_kept (parse : jsstring -> option JSON)
    (payload : jsstring) :
  Forall keep_rule (fallback_fragments parse payload).
Proof.
  unfold fallback_fragments. apply Forall_forall. intros x Hx.
  apply in_flat_map in Hx. destruct Hx as (m & _ & Hx).
  unfold decoded_fragment in Hx.
  destruct (parse m) as [[ | | |c| | ]|]; try now destruct Hx.
  destruct (keep c) eqn:K; [|now destruct Hx].
  destruct Hx as [<-|[]]. now apply keep_iff.
Qed.

Lemma line_fragments_kept (parse : jsstring -> option JSON) (line : jsstring) :
  Forall keep_rule (line_fragments parse line).
Proof.
  unfold line_fragments. cbv zeta.
  destruct (_ || _); [constructor|].
  destruct (rowMatch (trim line)) as [[idx payload]|]; [|constructor].
  destruct (parse payload) as [v|];
    [apply value_fragments_kept | apply fallback_fragments_kept].
Qed.

Lemma join_length_first (sep x : jsstring) (parts : list jsstring) :
  (List.length x <= List.length (join sep (x :: parts)))%nat.
Proof.
  destruct parts as [|p ps]; cbn [join]; [lia|].
  rewrite length_app. lia.
Qed.

(** X18.  Whenever the loop body returns for a line, what it appended are
    strings longer than 20 units that begin with neither a dollar sign nor
    an at sign, whatever the parser does and whatever the stack of the
    engine holds; so an output that [parseRsc] returns is empty or longer
    than 20 units. *)
Theorem parseRsc_fragments_kept :
  (forall parse line extracted result,
      parseRsc_line parse line extracted = (Val tt, result) ->
      exists frags, result = extracted ++ frags /\ Forall keep_rule frags)
  /\ (forall parse limit line extracted result,
         parseRsc_line_on parse limit line extracted = (Val tt, result) ->
         exists frags, result = extracted ++ frags /\ Forall keep_rule frags)
  /\ (forall data out,
         parseRsc data = Val out ->
         out = [] \/ (20 < List.length out)%nat)
  /\ (forall limit data out,
         parseRsc_on limit data = Val out ->
         out = [] \/ (20 < List.length out)%nat).
Proof.
  assert (Hline : forall parse line extracted result,
             parseRsc_line parse line extracted = (Val tt, result) ->
             exists frags,
               result = extracted ++ frags /\ Forall keep_rule frags).
  { intros parse line extracted result H.
    rewrite (parseRsc_line_appends parse line extracted) in H.
    injection H as <-. exists (line_fragments parse line).
    split; [reflexivity | apply line_fragments_kept]. }
  assert (Hout : forall data out,
             parseRsc data = Val out ->
             out = [] \/ (20 < List.length out)%nat).
  { intros data out H. unfold parseRsc in H.
    rewrite (parseRsc_with_eq JSON_parse data) in H. injection H as <-.
    assert (K : Forall keep_rule
                  (flat_map (line_fragments JSON_parse) (split 10 data))).
    { apply Forall_flat_map, Forall_forall. intros line _.
      apply line_fragments_kept. }
    destruct (flat_map _ _) as [|x parts]; [now left|]. right.
    apply Forall_inv in K. destruct K as [K _].
    pose proof (join_length_first [10; 10]%N x parts). lia. }
  split; [exact Hline | split; [|split; [exact Hout|]]].
  - intros parse limit line extracted result H.
    destruct (parseRsc_line_on_cases parse limit line extracted) as [E|E];
      rewrite E in H; [now apply (Hline parse line) | discriminate].
  - intros limit data out H.
    exact (Hout data out (parseRsc_on_returns limit data out H)).
Qed.

Lemma parseRsc_fragments_kept_witness :
  (exists frags, [long_sentence] = [] ++ frags /\ Forall keep_rule frags)
  /\ (long_sentence = [] \/ (20 < List.length long_sentence)%nat)
  /\ (long_sentence = [] \/ (20 < List.length long_sentence)%nat).
Proof.
  destruct parseRsc_fragments_kept as (Hline & _ & Hout & Hon).
  split; [|split].
  - apply (Hline JSON_parse row_string [] [long_sentence]).
    vm_compute. reflexivity.
  - apply (Hout row_string long_sentence). vm_compute. reflexivity.
  - apply (Hon 64%nat row_string long_sentence). vm_compute. reflexivity.
Defined.

Lemma split_app (sep : N) (a b : jsstring) :
  split sep (a ++ sep :: b) = split sep a ++ split sep b.
Proof.
  induction a as [|c a IH]; cbn [app split].
  - now rewrite N.eqb_refl.
  - rewrite IH. destruct (c =? sep)%N; [reflexivity|].
    destruct (split sep a) as [|l ls] eqn:E; [|reflexivity].
    destruct a; cbn [split] in E; [discriminate|].
    destruct (n =? sep)%N; [discriminate|].
    destruct (split sep a); discriminate.
Qed.

Lemma join_app (sep : jsstring) (l1 l2 : list jsstring) :
  l1 <> [] -> l2 <> [] ->
  join sep (l1 ++ l2) = join sep l1 ++ sep ++ join sep l2.
Proof.
  intros H1 H2. induction l1 as [|x l1 IH]; [now destruct H1|].
  destruct l1 as [|y l1].
  - destruct l2 as [|z l2]; [now destruct H2 | reflexivity].
  - change (join sep ((x :: y :: l1) ++ l2))
      with (x ++ sep ++ join sep ((y :: l1) ++ l2)).
    rewrite IH by discriminate.
    change (join sep (x :: y :: l1)) with (x ++ sep ++ join sep (y :: l1)).
    now rewrite <- !app_assoc.
Qed.

Lemma join_kept_nil (sep : jsstring) (parts : list jsstring) :
  Forall keep_rule parts -> join sep parts = [] -> parts = [].
Proof.
  intros H E. destruct parts as [|x parts]; [reflexivity|].
  apply Forall_inv in H. destruct H as [H _].
  pose proof (join_length_first sep x parts) as L. rewrite E in L.
  cbn in L. lia.
Qed.

(** X19.  [parseRsc] goes line by line: the output for two payloads put one
    after the other, with a newline between them, is the output for the
    first, a blank line, and the output for the second, or the output of
    one of them alone when the other gives nothing. *)
Theorem parseRsc_concat :
  forall a b ta tb,
    parseRsc a = Val ta ->
    parseRsc b = Val tb ->
    parseRsc (a ++ 10%N :: b)
    = Val (match ta, tb with
           | [], _ => tb
           | _, [] => ta
           | _, _ => ta ++ [10; 10]%N ++ tb
           end).
Proof.
  intros a b ta tb Ha Hb. unfold parseRsc in *.
  rewrite parseRsc_with_eq in *. injection Ha as Ha. injection Hb as Hb.
  rewrite split_app, flat_map_app.
  set (fa := flat_map (line_fragments JSON_parse) (split 10 a)) in *.
  set (fb := flat_map (line_fragments JSON_parse) (split 10 b)) in *.
  assert (Ka : Forall keep_rule fa).
  { apply Forall_flat_map, Forall_forall. intros line _.
    apply line_fragments_kept. }
  assert (Kb : Forall keep_rule fb).
  { apply Forall_flat_map, Forall_forall. intros line _.
    apply line_fragments_kept. }
  f_equal. destruct fa as [|x fa].
  - cbn [join] in Ha. subst ta. cbn [app]. exact Hb.
  - destruct fb as [|y fb].
    + cbn [join] in Hb. subst tb. rewrite app_nil_r, Ha.
      now destruct ta.
    + rewrite join_app by discriminate. rewrite Ha, Hb.
      destruct ta as [|c ta].
      { apply (join_kept_nil _ _ Ka) in Ha. discriminate. }
      destruct tb as [|d tb]; [|reflexivity].
      apply (join_kept_nil _ _ Kb) in Hb. discriminate.
Qed.

Lemma parseRsc_concat_witness :
  parseRsc (row_string ++ 10%N :: row_nested)
  = Val (long_sentence ++ [10; 10]%N ++ top_string)
  /\ parseRsc (row_string ++ 10%N :: row_element) = Val long_sentence.
Proof.
  split.
  - exact (parseRsc_concat row_string row_nested long_sentence top_string
             ltac:(vm_compute; reflexivity) ltac:(vm_compute; reflexivity)).
  - exact (parseRsc_concat row_string row_element long_sentence []
             ltac:(vm_compute; reflexivity) ltac:(vm_compute; reflexivity)).
Defined.

(** X20.  The index of a row is not used: two lines whose rows carry the
    same payload under different indexes contribute the same strings,
    whatever the parser. *)
Theorem parseRsc_index_ignored :
  forall parse line1 line2 idx1 idx2 payload extracted,
    rowMatch (trim line1) = Some (idx1, payload) ->
    rowMatch (trim line2) = Some (idx2, payload) ->
    parseRsc_line parse line1 extracted = parseRsc_line parse line2 extracted.
Proof.
  intros parse line1 line2 idx1 idx2 payload extracted H1 H2.
  rewrite (parseRsc_line_appends parse line1 extracted).
  rewrite (parseRsc_line_appends parse line2 extracted).
  rewrite (line_fragments_row parse line1 idx1 payload H1).
  now rewrite (line_fragments_row parse line2 idx2 payload H2).
Qed.

Lemma parseRsc_index_ignored_witness :
  parseRsc_line JSON_parse row_string []
  = parseRsc_line JSON_parse (js "907:" ++ quoted long_sentence) [].
Proof.
  exact (parseRsc_index_ignored JSON_parse row_string
           (js "907:" ++ quoted long_sentence) (js "1") (js "907")
           (quoted long_sentence) []
           ltac:(vm_compute; reflexivity) ltac:(vm_compute; reflexivity)).
Defined.

Lemma trimStart_spaces (pre s : jsstring) :
  forallb is_space pre = true -> trimStart (pre ++ s) = trimStart s.
Proof.
  induction pre as [|c pre IH]; intros H; [reflexivity|].
  cbn [forallb] in H. apply andb_true_iff in H. destruct H as [Hc Hp].
  cbn [app trimStart]. rewrite Hc. now apply IH.
Qed.

Lemma trimStart_all_spaces (s : jsstring) :
  forallb is_space s = true -> trimStart s = [].
Proof.
  intros H. rewrite <- (app_nil_r s). now rewrite trimStart_spaces.
Qed.

Lemma trimEnd_spaces (s post : jsstring) :
  forallb is_space post = true -> trimEnd (s ++ post) = trimEnd s.
Proof.
  intros H. unfold trimEnd. rewrite rev_app_distr.
  rewrite trimStart_spaces; [reflexivity|].
  rewrite forallb_forall in *. intros x Hx. apply H. now apply in_rev.
Qed.

Lemma trimStart_app (s post : jsstring) :
  trimStart (s ++ post)
  = if forallb is_space s then trimStart post else trimStart s ++ post.
Proof.
  induction s as [|c s IH]; [reflexivity|].
  cbn [app trimStart forallb]. destruct (is_space c); [exact IH | reflexivity].
Qed.

Lemma trim_spaces (pre s post : jsstring) :
  forallb is_space pre = true -> forallb is_space post = true ->
  trim (pre ++ s ++ post) = trim s.
Proof.
  intros Hpre Hpost. unfold trim. rewrite (trimStart_spaces pre _ Hpre).
  rewrite trimStart_app. destruct (forallb is_space s) eqn:E.
  - rewrite (trimStart_all_spaces post Hpost).
    now rewrite (trimStart_all_spaces s E).
  - now apply trimEnd_spaces.
Qed.

(** X21.  White space around a row does not matter: a line with white
    space or line terminators added before and after it, such as an
    indented line or one that ends in a carriage return, does what the
    line does, whatever the parser. *)
Theorem parseRsc_line_trimmed :
  forall parse pre line post extracted,
    forallb is_space pre = true ->
    forallb is_space post = true ->
    parseRsc_line parse (pre ++ line ++ post) extracted
    = parseRsc_line parse line extracted.
Proof.
  intros parse pre line post extracted Hpre Hpost.
  unfold parseRsc_line. cbv zeta. now rewrite (trim_spaces pre line post).
Qed.

Lemma parseRsc_line_trimmed_witness :
  parseRsc_line JSON_parse (js "  " ++ row_string ++ [13%N]) []
  = parseRsc_line JSON_parse row_string [].
Proof.
  exact (parseRsc_line_trimmed JSON_parse (js "  ") row_string [13%N] []
           eq_refl eq_refl).
Defined.

Lemma span_digits_head (c : N) (t : jsstring) :
  is_digit c = false -> span_digits (c :: t) = ([], c :: t).
Proof. intros H. cbn [span_digits]. now rewrite H. Qed.

(** X22.  A line that, once trimmed, does not begin with a digit leaves the
    extracted strings as they are: blank lines, comment lines and any other
    text are passed over without being parsed, whatever they hold. *)
Theorem parseRsc_line_not_a_row :
  forall parse line extracted,
    (forall c rest, trim line = c :: rest -> is_digit c = false) ->
    parseRsc_line parse line extracted = (Val tt, extracted).
Proof.
  intros parse line extracted H. unfold parseRsc_line. cbv zeta.
  destruct (trim line) as [|c rest] eqn:E; [reflexivity|].
  cbn [is_empty orb]. destruct (startsWith (c :: rest) (js "#"));
    [reflexivity|].
  unfold rowMatch. now rewrite (span_digits_head c rest (H c rest eq_refl)).
Qed.

Lemma parseRsc_line_not_a_row_witness :
  parseRsc_line JSON_parse (js "# " ++ row_string) [] = (Val tt, [])
  /\ parseRsc_line JSON_parse (js "   ") [] = (Val tt, []).
Proof.
  split.
  - apply (parseRsc_line_not_a_row JSON_parse (js "# " ++ row_string) []).
    intros c rest H. vm_compute in H. injection H as <- _. reflexivity.
  - apply (parseRsc_line_not_a_row JSON_parse (js "   ") []).
    intros c rest H. vm_compute in H. discriminate.
Defined.






(** * Further properties of the Challenge Detector *)

(** X24.  For every status, the detector of the local response answers
    true exactly when the status is 403, 429 or 503 or the body contains
    one of the four keywords in some letter case; the test of the proxy
    response is the same test without the status codes. *)
Theorem isChallenge_iff :
  forall status body,
    (isChallenge status body = true
     <-> (status = 403%Z \/ status = 429%Z \/ status = 503%Z)
         \/ exists kw, In kw challenge_keywords
                       /\ contains_any_case body kw)
    /\ (jinaBlocked body = true
        <-> exists kw, In kw challenge_keywords
                       /\ contains_any_case body kw)
    /\ isChallenge status body
       = ((status =? 403)%Z || (status =? 429)%Z || (status =? 503)%Z
          || jinaBlocked body).
Proof.
  intros status body.
  assert (E : isChallenge status body
              = ((status =? 403)%Z || (status =? 429)%Z || (status =? 503)%Z
                 || jinaBlocked body)).
  { unfold isChallenge, jinaBlocked. now rewrite !orb_assoc. }
  split; [|split; [apply jinaBlocked_iff | exact E]].
  rewrite E, !orb_true_iff, !Z.eqb_eq, jinaBlocked_iff. tauto.
Qed.

Lemma span_digits_prefix (idx rest : jsstring) (c : N) :
  forallb is_digit idx = true -> is_digit c = false ->
  span_digits (idx ++ c :: rest) = (idx, c :: rest).
Proof.
  intros Hi Hc. induction idx as [|d idx IH].
  - cbn [app span_digits]. now rewrite Hc.
  - cbn [forallb] in Hi. apply andb_true_iff in Hi. destruct Hi as [Hd Hi].
    cbn [app span_digits]. rewrite Hd, (IH Hi). reflexivity.
Qed.

(** X25.  A row whose payload holds a line terminator other than the
    newline that ends it (a carriage return inside it, or one of the two
    Unicode separators) is passed over whole: the row expression does not
    match, and nothing of the line is parsed, whatever the parser. *)
Theorem parseRsc_line_terminator_inside :
  forall parse line idx payload u extracted,
    trim line = idx ++ 58%N :: payload ->
    forallb is_digit idx = true ->
    In u payload ->
    is_line_terminator u = true ->
    parseRsc_line parse line extracted = (Val tt, extracted).
Proof.
  intros parse line idx payload u extracted Ht Hi Hu Hl.
  unfold parseRsc_line. cbv zeta. rewrite Ht.
  destruct (is_empty _ || startsWith _ _); [reflexivity|].
  unfold rowMatch. rewrite (span_digits_prefix idx payload 58 Hi eq_refl).
  destruct idx as [|d idx]; [reflexivity|].
  replace (forallb (fun u0 => negb (is_line_terminator u0)) payload)
    with false; [now rewrite andb_false_r|].
  symmetry. apply not_true_is_false. intros H.
  rewrite forallb_forall in H. specialize (H u Hu). now rewrite Hl in H.
Qed.

Lemma parseRsc_line_terminator_inside_witness :
  parseRsc_line JSON_parse
    (js "1:" ++ quoted (js "first half of a string" ++ [8232%N]
                        ++ js "second half of it")) []
  = (Val tt, []).
Proof.
  apply (parseRsc_line_terminator_inside JSON_parse _ (js "1")
           (quoted (js "first half of a string" ++ [8232%N]
                    ++ js "second half of it")) 8232 []).
  - vm_compute. reflexivity.
  - reflexivity.
  - vm_compute. tauto.
  - reflexivity.
Defined.

(** X26.  What fails before the signal is read wins over cancellation:
    whatever the signal, a call whose URL the URL class rejects fails with
    the error of the URL class and sends nothing, and a call whose request
    the client refuses fails with the error of the client. *)
Theorem fetchContent_early_errors :
  forall env url headers signal maxRedirects w e,
    (0 <= maxRedirects)%Z ->
    (URL_protocol env url = inl e ->
     fetchContent env url headers signal maxRedirects w
     = (Thrown e, after w [EvFetchContent url maxRedirects]))
    /\ (forall protocol,
           URL_protocol env url = inr protocol ->
           client_get env (requests w) (client_for protocol) url
                      (requestHeaders env headers) = GetThrows e ->
           fetchContent env url headers signal maxRedirects w
           = (Thrown e, sent env w url maxRedirects protocol headers)).
Proof.
  intros env url headers signal m w e Hm. split.
  - intros Hu. rewrite fetchContent_eq.
    unfold fetchContent_body, bind, emit, modify, of_sum.
    replace (m <? 0)%Z with false by (symmetry; apply Z.ltb_ge; lia).
    now rewrite Hu.
  - intros protocol Hu Hg. rewrite fetchContent_eq.
    unfold fetchContent_body, bind, emit, modify, issue, of_sum.
    replace (m <? 0)%Z with false by (symmetry; apply Z.ltb_ge; lia).
    rewrite Hu. unfold ret at 1. cbn [requests trace]. rewrite Hg.
    unfold throw, sent. now rewrite <- app_assoc.
Qed.

Lemma fetchContent_early_errors_witness :
  fetchContent web_env (js "not a url") [] cancelled 5 start
  = (Thrown INVALID_URL, after start [EvFetchContent (js "not a url") 5]).
Proof.
  exact (proj1 (fetchContent_early_errors web_env (js "not a url") []
                  cancelled 5 start INVALID_URL ltac:(lia))
           eq_refl).
Defined.

Lemma scanScripts_none (scripts : list (option jsstring)) (w : World) :
  Forall lacks_marker scripts ->
  scanScripts scripts w = (Val None, w).
Proof.
  intros Hs. induction Hs as [|script rest Hm _ IH]; [reflexivity|].
  cbn [scanScripts]. destruct script as [[|c t]|]; try exact IH.
  cbn [lacks_marker] in Hm. unfold NEXT_MARKER in Hm. now rewrite Hm.
Qed.

(** X27.  On the HTML path, when the readability parser finds no article
    with more than 100 units of content and no script of the document has
    the marker, the local path falls through: the DOM is built and the
    parser run, and the next step is the fetch for the proxy. *)
Theorem execute_html_falls_through :
  forall env url signal w fetched w1 doc doc' article,
    fetchContent env url [] signal 5 w = (Val fetched, w1) ->
    isChallenge (statusCode fetched) (data fetched) = false ->
    (200 <= statusCode fetched < 300)%Z ->
    passthrough_type (contentType fetched) = false ->
    includes (contentType fetched) (js "text/x-component") = false ->
    includes (contentType fetched) (js "text/html") = true ->
    JSDOM env (data fetched) url = inr doc ->
    Readability_parse env doc = inr (article, doc') ->
    (forall a, article = Some a -> ~ has_long_content a) ->
    Forall lacks_marker (script_texts env doc') ->
    localStage env url signal w
    = (Val None, after w1 [EvJSDOM url; EvReadability])
    /\ exists outcome w2 proxy,
         execute env url signal w = (outcome, w2)
         /\ trace w2
            = trace w1 ++ [EvJSDOM url; EvReadability]
              ++ EvFetchContent (jinaUrl url) 5 :: proxy
         /\ forallb is_fetch_event proxy = true.
Proof.
  intros env url signal w fetched w1 doc doc' article
         Hf Hc Hs Hp Hx Hh Hd Hr Hno Hsc.
  assert (Hnone : forall w', articleResult env article w' = (Val None, w')).
  { intros w'. unfold articleResult. destruct article as [a|]; [|reflexivity].
    destruct (article_content a) as [[|c html]|] eqn:Ha; try reflexivity.
    destruct (Nat.ltb_spec 100 (List.length (c :: html))) as [Hl|Hl];
      [|reflexivity].
    destruct (Hno a eq_refl). now exists (c :: html). }
  assert (Hl : localStage env url signal w
               = (Val None, after w1 [EvJSDOM url; EvReadability])).
  { rewrite (localStage_fetched env url signal w fetched w1 Hf).
    rewrite (afterFetch_extracting env url fetched w1 Hc Hs Hp).
    rewrite Hx, Hh. unfold bind at 1. unfold ret at 1.
    unfold htmlStage, bind at 1 2 3 4, emit, modify, of_sum.
    rewrite Hd. unfold ret at 1. cbn [requests trace]. rewrite Hr.
    unfold ret at 1. unfold bind. rewrite Hnone.
    rewrite (scanScripts_none (script_texts env doc') _ Hsc).
    unfold after. now rewrite <- app_assoc. }
  split; [exact Hl|].
  rewrite (execute_falls_through env url signal w _ Hl).
  destruct (fetchContent env (jinaUrl url) [] signal 5
              (after w1 [EvJSDOM url; EvReadability])) as [r w2] eqn:Hq.
  rewrite (jinaFallback_cases env url signal _ r w2 Hq).
  destruct (fetchContent_trace env (jinaUrl url) [] signal 5 _ _ _ Hq)
    as (proxy & Ep & Fp).
  cbn [after trace] in Ep. rewrite <- app_assoc in Ep.
  destruct r as [proxied|e|e]; eauto 10.
Qed.

Lemma execute_html_falls_through_witness :
  localStage lenient_env (js "http://article.example/") None start
  = (Val None,
     after (local_world lenient_env (js "http://article.example/"))
           [EvJSDOM (js "http://article.example/"); EvReadability]).
Proof.
  exact (proj1 (execute_html_falls_through lenient_env
                  (js "http://article.example/") None start html_page
                  (local_world lenient_env (js "http://article.example/"))
                  (js "<html></html>") (js "<html></html>") None
                  ltac:(vm_compute; reflexivity)
                  ltac:(vm_compute; reflexivity)
                  ltac:(cbn; lia)
                  ltac:(vm_compute; reflexivity)
                  ltac:(vm_compute; reflexivity)
                  ltac:(vm_compute; reflexivity)
                  eq_refl eq_refl
                  ltac:(intros a H; discriminate)
                  ltac:(constructor))).
Defined.
